(** * Pixel Dreamer: the raster editing engine

    A shallow embedding of the three pixel operations of [src/App.tsx]:
    [floodFill] and [removeColor] of the [PixelEditor] component, and the
    sprite-sheet layout of [handleAssembleSheet]; then of the code around
    them: the mouse and zoom handlers of the editor, the list of sheet
    images, the custom styles, the error and edit handlers of [App], and the
    response handling of [src/services/geminiService.ts].

    JavaScript numbers that the code uses as integers (coordinates, byte
    indices, channel values, image sizes) are [Z].  The [data] array of an
    [ImageData] is a [Uint8ClampedArray]: a [list Z] read with [rd] (an index
    outside the array reads [undefined], here [None]) and written with [wr]
    (a store outside the array is dropped, a stored value is clamped to
    0..255). *)

From Stdlib Require Import ZArith Lia Bool String.
From stdpp Require Import base list.

Local Open Scope Z_scope.

(** ** Typed-array access *)

Definition rd (data : list Z) (i : Z) : option Z :=
  if i <? 0 then None else data !! Z.to_nat i.

Definition clamp8 (v : Z) : Z := Z.max 0 (Z.min 255 v).

Definition wr (data : list Z) (i v : Z) : list Z :=
  if i <? 0 then data else <[Z.to_nat i := clamp8 v]> data.

(** [a === b] on values that are a number or [undefined]. *)
Definition strictEq (a b : option Z) : bool :=
  match a, b with
  | Some m, Some n => m =? n
  | None, None => true
  | _, _ => false
  end.

(** [Math.abs(a - b) <= t]: with an [undefined] operand the difference is
    NaN and the comparison is false. *)
Definition absDiffLe (a b : option Z) (t : Z) : bool :=
  match a, b with
  | Some m, Some n => Z.abs (m - n) <=? t
  | _, _ => false
  end.

(** [a > 0], false on [undefined]. *)
Definition gtZero (a : option Z) : bool :=
  match a with
  | Some m => 0 <? m
  | None => false
  end.

(** What [ctx.getImageData(0, 0, width, height)] hands to the editor. *)
Record ImageData := mkImageData {
  width : Z;
  height : Z;
  data : list Z
}.

(** The four consecutive bytes of the pixel that starts at byte [i]. *)
Definition pixel (d : list Z) (i : Z) : option Z * option Z * option Z * option Z :=
  (rd d i, rd d (i + 1), rd d (i + 2), rd d (i + 3)).

(** The result of [hexToRgb(color)]; [color] is the value of the colour
    input, [#rrggbb]. *)
Record rgb := mkRgb { r : Z; g : Z; b : Z }.

(** ** floodFill *)

Definition fillA : Z := 255.

Section FloodFill.
Variables (width0 height0 : Z).
Variables (targetR targetG targetB targetA : option Z).
Variable (fillColor : rgb).

Definition outside (x y : Z) : bool :=
  (x <? 0) || (x >=? width0) || (y <? 0) || (y >=? height0).

Definition matchesTarget (d : list Z) (pixelPos : Z) : bool :=
  strictEq (rd d pixelPos) targetR &&
  strictEq (rd d (pixelPos + 1)) targetG &&
  strictEq (rd d (pixelPos + 2)) targetB &&
  strictEq (rd d (pixelPos + 3)) targetA.

Definition fillPixel (d : list Z) (pixelPos : Z) : list Z :=
  wr (wr (wr (wr d pixelPos (r fillColor))
             (pixelPos + 1) (g fillColor))
         (pixelPos + 2) (b fillColor))
     (pixelPos + 3) fillA.

(** One turn of the [while (pixelStack.length)] loop, after the [pop]:
    [top] is the popped entry and [rest] is what stays on the stack.  The
    head of the list is the end of the JavaScript array. *)
Definition fillStep (d : list Z) (top : Z * Z) (rest : list (Z * Z))
  : list Z * list (Z * Z) :=
  let '(x, y) := top in
  if outside x y then (d, rest)
  else
    let pixelPos := (y * width0 + x) * 4 in
    if matchesTarget d pixelPos
    then (fillPixel d pixelPos,
          (x, y - 1) :: (x, y + 1) :: (x - 1, y) :: (x + 1, y) :: rest)
    else (d, rest).

(** The loop; [None] when [fuel] turns do not empty the stack. *)
Fixpoint fillLoop (fuel : nat) (d : list Z) (pixelStack : list (Z * Z))
  : option (list Z) :=
  match pixelStack with
  | [] => Some d
  | top :: rest =>
      match fuel with
      | O => None
      | S fuel' =>
          let '(d', pixelStack') := fillStep d top rest in
          fillLoop fuel' d' pixelStack'
      end
  end.
End FloodFill.

(** [floodFill(startX, startY)] on the canvas content [img] with the
    current colour [fillColor]; the result is the content of the canvas
    when the call returns ([putImageData] after the loop, the canvas as it
    was on the early [return]), [None] when [fuel] turns of the loop are
    not enough.  The canvas and its 2d context are taken to exist. *)
Definition floodFill (fuel : nat) (img : ImageData) (fillColor : rgb)
    (startX startY : Z) : option ImageData :=
  let targetIndex := (startY * width img + startX) * 4 in
  let targetR := rd (data img) targetIndex in
  let targetG := rd (data img) (targetIndex + 1) in
  let targetB := rd (data img) (targetIndex + 2) in
  let targetA := rd (data img) (targetIndex + 3) in
  if strictEq targetR (Some (r fillColor)) &&
     strictEq targetG (Some (g fillColor)) &&
     strictEq targetB (Some (b fillColor)) &&
     strictEq targetA (Some fillA)
  then Some img
  else
    match fillLoop (width img) (height img) targetR targetG targetB targetA
                   fillColor fuel (data img) [(startX, startY)] with
    | Some d => Some (mkImageData (width img) (height img) d)
    | None => None
    end.

(** ** removeColor *)

Definition tolerance : Z := 15.

Section RemoveColor.
Variables (r0 g0 b0 : option Z).

(** The condition of the [if] in the [for] loop at byte index [i]. *)
Definition maskTest (d : list Z) (i : Z) : bool :=
  absDiffLe (rd d i) r0 tolerance &&
  absDiffLe (rd d (i + 1)) g0 tolerance &&
  absDiffLe (rd d (i + 2)) b0 tolerance &&
  gtZero (rd d (i + 3)).

(** The body of the [for] loop at byte index [i]. *)
Definition maskAt (d : list Z) (i : Z) : list Z :=
  if maskTest d i then wr d (i + 3) 0 else d.

(** [for (let i = 0; i < data.length; i += 4)]: the indices
    0, 4, 8, ... below the (fixed) length of the array, in order. *)
Definition maskIndices (len : nat) : list Z :=
  (fun k : nat => 4 * Z.of_nat k) <$> seq 0 (Nat.div (len + 3) 4).

Definition maskLoop (d : list Z) : list Z :=
  foldl maskAt d (maskIndices (length d)).
End RemoveColor.

(** [removeColor(startX, startY)] on the canvas content [img]; the result
    is the content of the canvas when the call returns. *)
Definition removeColor (img : ImageData) (startX startY : Z) : ImageData :=
  let targetIndex := (startY * width img + startX) * 4 in
  let r := rd (data img) targetIndex in
  let g := rd (data img) (targetIndex + 1) in
  let b := rd (data img) (targetIndex + 2) in
  let a := rd (data img) (targetIndex + 3) in
  if strictEq a (Some 0) then img
  else mkImageData (width img) (height img) (maskLoop r g b (data img)).

(** ** handleAssembleSheet *)

Module Sheet.

(** A loaded [HTMLImageElement], as far as the layout reads it. *)
Record Image := mkImage { width : Z; height : Z }.

Module H.
Inductive align := left | center | right.
End H.

Module V.
Inductive align := top | center | bottom.
End V.

(** The canvas the handler builds: the values assigned to [canvas.width]
    and [canvas.height], and the [ctx.drawImage(img, dx, dy)] calls in the
    order they are made. *)
Record Canvas := mkCanvas {
  canvasWidth : Z;
  canvasHeight : Z;
  drawn : list (Image * Z * Z)
}.

(** [Math.ceil(n / c)] on integers, [c] not zero. *)
Definition ceilDiv (n c : Z) : Z := - ((- n) / c).

(** [Math.max(...(x :: xs))]. *)
Definition maxOf (x : Z) (xs : list Z) : Z := foldl Z.max x xs.

Section Layout.
Variables (sheetColumns sheetSpacing : Z).
Variable (sheetHorizontalAlignment : H.align).
Variable (sheetVerticalAlignment : V.align).
Variables (maxWidth maxHeight : Z).

Definition xOffsetOf (img : Image) : Z :=
  match sheetHorizontalAlignment with
  | H.center => (maxWidth - width img) / 2
  | H.right => maxWidth - width img
  | H.left => 0
  end.

Definition yOffsetOf (img : Image) : Z :=
  match sheetVerticalAlignment with
  | V.center => (maxHeight - height img) / 2
  | V.bottom => maxHeight - height img
  | V.top => 0
  end.

(** The body of [loadedImages.forEach((img, i) => ...)]: the arguments
    of the [drawImage] call for image [i]. *)
Definition place (i : nat) (img : Image) : Image * Z * Z :=
  let cols := sheetColumns in
  let spacing := sheetSpacing in
  let col := Z.rem (Z.of_nat i) cols in
  let row := Z.of_nat i / cols in
  let x := col * (maxWidth + spacing) in
  let y := row * (maxHeight + spacing) in
  (img, x + xOffsetOf img, y + yOffsetOf img).
End Layout.

(** The [try] block after the images are loaded; [None] is the early
    [return] on an empty list. *)
Definition assemble (sheetColumns sheetSpacing : Z)
    (sheetHorizontalAlignment : H.align) (sheetVerticalAlignment : V.align)
    (loadedImages : list Image) : option Canvas :=
  match loadedImages with
  | [] => None
  | i0 :: others =>
      let maxWidth := maxOf (width i0) (width <$> others) in
      let maxHeight := maxOf (height i0) (height <$> others) in
      let cols := sheetColumns in
      let spacing := sheetSpacing in
      let rows := ceilDiv (Z.of_nat (length loadedImages)) cols in
      let w := cols * maxWidth + (cols - 1) * spacing in
      let h := rows * maxHeight + (rows - 1) * spacing in
      let '(w, h) :=
        if (length loadedImages =? 1)%nat then (maxWidth, maxHeight)
        else (w, h) in
      Some (mkCanvas w h
              (imap (place sheetColumns sheetSpacing
                       sheetHorizontalAlignment sheetVerticalAlignment
                       maxWidth maxHeight) loadedImages))
  end.

(** The part of the [App] state the handler touches. *)
Record AppState := mkAppState {
  generatedImage : option Canvas;
  isGenerating : bool;
  error : option string
}.

Definition setGeneratedImage (c : Canvas) (st : AppState) : AppState :=
  mkAppState (Some c) (isGenerating st) (error st).
Definition setIsGenerating (v : bool) (st : AppState) : AppState :=
  mkAppState (generatedImage st) v (error st).
Definition setError (msg : string) (st : AppState) : AppState :=
  mkAppState (generatedImage st) (isGenerating st) (Some msg).

(** [Promise.all] over the image loads: an entry [None] is a source whose
    load fires [onerror], and one such entry rejects the whole promise. *)
Fixpoint loadAll (sheetImages : list (option Image)) : option (list Image) :=
  match sheetImages with
  | [] => Some []
  | Some img :: srcs =>
      match loadAll srcs with
      | Some imgs => Some (img :: imgs)
      | None => None
      end
  | None :: _ => None
  end.

(** The handler, from the state [st] it is called in to the state it
    leaves: the guard on an empty sheet, then [try] / [catch] / [finally]
    around the loads and the layout.  [canvas.toDataURL()] is the canvas
    itself here, and the 2d context is taken to exist. *)
Definition handleAssembleSheet (sheetColumns sheetSpacing : Z)
    (sheetHorizontalAlignment : H.align) (sheetVerticalAlignment : V.align)
    (sheetImages : list (option Image)) (st : AppState) : AppState :=
  if (length sheetImages =? 0)%nat then st
  else
    let st1 := setIsGenerating true st in
    let st2 :=
      match loadAll sheetImages with
      | None => setError "Không thể ghép ảnh" st1
      | Some loadedImages =>
          match assemble sheetColumns sheetSpacing sheetHorizontalAlignment
                  sheetVerticalAlignment loadedImages with
          | None => st1
          | Some canvas => setGeneratedImage canvas st1
          end
      end in
    setIsGenerating false st2.

End Sheet.

(** ** Vocabulary of the properties *)

(** A coordinate [(x, y)] inside [0, width) x [0, height). *)
Definition inBounds (img : ImageData) (p : Z * Z) : Prop :=
  0 <= p.1 < width img /\ 0 <= p.2 < height img.

(** The byte at which the pixel [(x, y)] starts: [(y * width + x) * 4]. *)
Definition byteIndex (img : ImageData) (p : Z * Z) : Z :=
  (p.2 * width img + p.1) * 4.

(** The pixel of the buffer [d] that sits at [p] in the geometry of [img]. *)
Definition pixelAt (img : ImageData) (d : list Z) (p : Z * Z) :=
  pixel d (byteIndex img p).

Definition colorAt (img : ImageData) (p : Z * Z) :=
  pixelAt img (data img) p.

(** The buffers [getImageData] produces: four bytes per pixel, each byte
    in 0..255. *)
Definition wellFormed (img : ImageData) : Prop :=
  Z.of_nat (length (data img)) = width img * height img * 4 /\
  Forall (fun v => 0 <= v <= 255) (data img).

(** A fill colour with 8-bit channels. *)
Definition rgb8 (c : rgb) : Prop :=
  0 <= r c <= 255 /\ 0 <= g c <= 255 /\ 0 <= b c <= 255.

(** The colour [floodFill] writes. *)
Definition newColor (c : rgb) : option Z * option Z * option Z * option Z :=
  (Some (r c), Some (g c), Some (b c), Some fillA).

(** Up, down, left, right. *)
Definition adjacent (p q : Z * Z) : Prop :=
  q = (p.1 + 1, p.2) \/ q = (p.1 - 1, p.2) \/
  q = (p.1, p.2 + 1) \/ q = (p.1, p.2 - 1).

(** The 4-connected component of the seed among the in-bounds pixels that
    have exactly the seed's colour. *)
Inductive region (img : ImageData) (seed : Z * Z) : Z * Z -> Prop :=
| region_seed :
    inBounds img seed -> region img seed seed
| region_step p q :
    region img seed p -> adjacent p q -> inBounds img q ->
    colorAt img q = colorAt img seed -> region img seed q.

(** A run of the fill loop that may take any entry of the frontier next and
    may push the neighbours in any order. *)
Inductive fillRun (img : ImageData) (tR tG tB tA : option Z) (c : rgb)
  : list Z -> list (Z * Z) -> list Z -> Prop :=
| fillRun_done d : fillRun img tR tG tB tA c d [] d
| fillRun_pick d before top after d' frontier' frontier'' d'' :
    fillStep (width img) (height img) tR tG tB tA c d top (before ++ after)
      = (d', frontier') ->
    frontier'' ≡ₚ frontier' ->
    fillRun img tR tG tB tA c d' frontier'' d'' ->
    fillRun img tR tG tB tA c d (before ++ top :: after) d''.

(** [floodFill] with the loop replaced by any such run. *)
Definition floodFillAnyOrder (img : ImageData) (c : rgb) (startX startY : Z)
    (img' : ImageData) : Prop :=
  let targetIndex := (startY * width img + startX) * 4 in
  let targetR := rd (data img) targetIndex in
  let targetG := rd (data img) (targetIndex + 1) in
  let targetB := rd (data img) (targetIndex + 2) in
  let targetA := rd (data img) (targetIndex + 3) in
  if strictEq targetR (Some (r c)) && strictEq targetG (Some (g c)) &&
     strictEq targetB (Some (b c)) && strictEq targetA (Some fillA)
  then img' = img
  else exists d,
      fillRun img targetR targetG targetB targetA c
        (data img) [(startX, startY)] d /\
      img' = mkImageData (width img) (height img) d.

(** The states the loop of [floodFill] goes through from the seed. *)
Inductive loopState (img : ImageData) (tR tG tB tA : option Z) (c : rgb)
    (seed : Z * Z) : list Z -> list (Z * Z) -> Prop :=
| loopState_start : loopState img tR tG tB tA c seed (data img) [seed]
| loopState_next d top rest d' pixelStack' :
    loopState img tR tG tB tA c seed d (top :: rest) ->
    fillStep (width img) (height img) tR tG tB tA c d top rest
      = (d', pixelStack') ->
    loopState img tR tG tB tA c seed d' pixelStack'.

(** The loop invariant of the fill, for a buffer [d] and a frontier
    [pixelStack]: pixels are untouched or filled members of the region,
    frontier entries that have the seed's colour are in the region, and
    every neighbour of a filled pixel is filled or waiting on the frontier. *)
Record fillInv (img : ImageData) (c : rgb) (seed : Z * Z)
    (d : list Z) (pixelStack : list (Z * Z)) : Prop := mkFillInv {
  inv_length : length d = length (data img);
  inv_frame : forall p, inBounds img p ->
    pixelAt img d p = colorAt img p \/
    (region img seed p /\ pixelAt img d p = newColor c);
  inv_stack : forall s, s ∈ pixelStack -> inBounds img s ->
    colorAt img s = colorAt img seed -> region img seed s;
  inv_closed : forall p q, region img seed p ->
    pixelAt img d p = newColor c -> adjacent p q -> inBounds img q ->
    colorAt img q = colorAt img seed ->
    pixelAt img d q = newColor c \/ q ∈ pixelStack;
  inv_seed : inBounds img seed ->
    pixelAt img d seed = newColor c \/ seed ∈ pixelStack
}.

(** How many [k < n] satisfy [f]. *)
Fixpoint countIf (f : nat -> bool) (n : nat) : nat :=
  match n with
  | O => O
  | S k => ((if f k then 1 else 0) + countIf f k)%nat
  end.

(** The pixels of [d] that still have the target colour. *)
Definition pending (img : ImageData) (tR tG tB tA : option Z) (d : list Z)
  : nat :=
  countIf (fun k => matchesTarget tR tG tB tA d (Z.of_nat k * 4))
          (Z.to_nat (width img * height img)).

(** ** Sample buffers *)

(** 2 x 2, two colours on the two diagonals. *)
Definition checker : ImageData :=
  mkImageData 2 2 [10; 20; 30; 255;  90; 90; 90; 255;
                   90; 90; 90; 255;  10; 20; 30; 255].

(** A single pixel. *)
Definition onePixel : ImageData := mkImageData 1 1 [1; 2; 3; 255].

(** One column, two rows. *)
Definition column : ImageData :=
  mkImageData 1 2 [1; 2; 3; 255;  9; 9; 9; 255].

(** A row of three pixels: (100,100,100), (114,100,100), (116,100,100). *)
Definition greys : ImageData :=
  mkImageData 3 1 [100; 100; 100; 255;  114; 100; 100; 255;
                   116; 100; 100; 255].

(** A translucent pixel next to an opaque one of the same RGB. *)
Definition translucent : ImageData :=
  mkImageData 2 1 [7; 7; 7; 128;  7; 7; 7; 255].

(** The [App] state before anything was generated. *)
Definition idle : Sheet.AppState := Sheet.mkAppState None false None.

(** Five sprites of at most 16 x 16. *)
Definition fiveSprites : list Sheet.Image :=
  [Sheet.mkImage 16 16; Sheet.mkImage 8 8; Sheet.mkImage 16 10;
   Sheet.mkImage 1 1; Sheet.mkImage 12 16].

(** [m] is the largest of the values [xs]. *)
Definition maximumOf (m : Z) (xs : list Z) : Prop :=
  m ∈ xs /\ forall v, v ∈ xs -> v <= m.

(** ** The zoom buttons of the editor *)

(** [setZoom(z => Math.max(1, z - 1))] and [setZoom(z => Math.min(20, z + 1))]. *)
Definition zoomOut (z : Z) : Z := Z.max 1 (z - 1).
Definition zoomIn (z : Z) : Z := Z.min 20 (z + 1).

Inductive ZoomButton := ZoomOutButton | ZoomInButton.

Definition clickZoom (z : Z) (button : ZoomButton) : Z :=
  match button with
  | ZoomOutButton => zoomOut z
  | ZoomInButton => zoomIn z
  end.

(** The zoom after a series of clicks, from [useState(1)]. *)
Definition zoomAfter (clicks : list ZoomButton) : Z := foldl clickZoom 1 clicks.

(** ** The list of sheet images *)

(** [if (generatedImage) setSheetImages(prev => [...prev, generatedImage])]:
    [null] and the empty string are falsy. *)
Definition handleAddCurrentToSheet (generatedImage : option string)
    (prev : list string) : list string :=
  match generatedImage with
  | Some src => if String.eqb src "" then prev else prev ++ [src]
  | None => prev
  end.

(** [prev.filter((_, i) => i !== index)], the entries numbered from [i]. *)
Fixpoint removeIndex (index : Z) (i : nat) (prev : list string) : list string :=
  match prev with
  | [] => []
  | src :: srcs =>
      if Z.of_nat i =? index then removeIndex index (S i) srcs
      else src :: removeIndex index (S i) srcs
  end.

Definition handleRemoveFromSheet (index : Z) (prev : list string) : list string :=
  removeIndex index 0 prev.

(** ** The mouse handlers of the editor *)

Module Editor.

Inductive Tool := pen | eraser | magic_wand | fill_bucket.

(** The state a render of the editor closes over. *)
Record Snapshot := mkSnapshot {
  tool : Tool;
  color : rgb;
  isDrawing : bool
}.

(** What a handler does to the canvas: the two context calls of [draw] and
    the two pixel operations of [handleMouseDown]. *)
Inductive Effect :=
| FillRect (fillStyle : rgb) (x y w h : Z)
| ClearRect (x y w h : Z)
| RemoveColor (startX startY : Z)
| FloodFill (fillColor : rgb) (startX startY : Z).

(** [draw(e)], with [(x, y)] the result of [getCoordinates(e)]. *)
Definition draw (s : Snapshot) (x y : Z) : list Effect :=
  if negb (isDrawing s) ||
     match tool s with magic_wand | fill_bucket => true | _ => false end
  then []
  else
    match tool s with
    | pen => [FillRect (color s) x y 1 1]
    | eraser => [ClearRect x y 1 1]
    | _ => []
    end.

(** [handleMouseDown(e)]: the snapshot of the next render and the effects.
    [draw] is the function of the current render, so it still sees the
    [isDrawing] of the snapshot the handler was created in. *)
Definition handleMouseDown (s : Snapshot) (x y : Z) : Snapshot * list Effect :=
  match tool s with
  | magic_wand => (s, [RemoveColor x y])
  | fill_bucket => (s, [FloodFill (color s) x y])
  | _ => (mkSnapshot (tool s) (color s) true, draw s x y)
  end.

Definition handleMouseUp (s : Snapshot) : Snapshot :=
  mkSnapshot (tool s) (color s) false.

(** The events the canvas and the toolbar are wired to. *)
Inductive Event :=
| MouseDown (x y : Z)
| MouseMove (x y : Z)
| MouseUp
| MouseLeave
| SetTool (t : Tool)
| SetColor (c : rgb).

Definition handle (s : Snapshot) (e : Event) : Snapshot * list Effect :=
  match e with
  | MouseDown x y => handleMouseDown s x y
  | MouseMove x y => (s, draw s x y)
  | MouseUp | MouseLeave => (handleMouseUp s, [])
  | SetTool t => (mkSnapshot t (color s) (isDrawing s), [])
  | SetColor c => (mkSnapshot (tool s) c (isDrawing s), [])
  end.

(** A series of events, each handled in the render that follows the one
    before. *)
Fixpoint run (s : Snapshot) (events : list Event) : Snapshot * list Effect :=
  match events with
  | [] => (s, [])
  | e :: rest =>
      let '(s1, effects1) := handle s e in
      let '(s2, effects2) := run s1 rest in
      (s2, effects1 ++ effects2)
  end.

End Editor.

(** ** JavaScript values of the service and of the handlers *)

(** A thrown value, as far as the handlers read it: [err.message] and
    [err.toString()]. *)
Record JsError := mkJsError {
  message : option string;
  asString : string
}.

(** [new Error(msg)]. *)
Definition newError (msg : string) : JsError :=
  mkJsError (Some msg)
    (if String.eqb msg "" then "Error" else String.append "Error: " msg).

(** A call returns a value or throws. *)
Inductive completion (A : Type) : Type :=
| Return (v : A)
| Throw (err : JsError).
Arguments Return {A} v.
Arguments Throw {A} err.

(** Truthiness of a value that is a string or [undefined] / [null]. *)
Definition truthy (v : option string) : bool :=
  match v with
  | Some str => negb (String.eqb str "")
  | None => false
  end.

(** [a || b] on strings. *)
Definition orElse (a : option string) (b : string) : string :=
  match a with
  | Some str => if String.eqb str "" then b else str
  | None => b
  end.

(** [hay.includes(needle)]. *)
Fixpoint includes (hay needle : string) : bool :=
  String.prefix needle hay ||
  match hay with
  | EmptyString => false
  | String _ rest => includes rest needle
  end.

(** ** services/geminiService.ts *)

Module Gemini.

(** A part of a response: [inlineData] holds the [data] of an inline image
    when the part has one. *)
Record Part := mkPart {
  inlineData : option string;
  text : option string
}.

Record Content := mkContent { parts : option (list Part) }.
Record Candidate := mkCandidate { content : option Content }.
Record Response := mkResponse { candidates : option (list Candidate) }.

(** [response.candidates?.[0]?.content?.parts || []]. *)
Definition partsOf (response : Response) : list Part :=
  match candidates response with
  | Some (candidate :: _) =>
      match content candidate with
      | Some c =>
          match parts c with
          | Some ps => ps
          | None => []
          end
      | None => []
      end
  | _ => []
  end.

(** The [for (const part of parts)] loop: the data of the first part that
    has inline data. *)
Fixpoint firstInline (ps : list Part) : option string :=
  match ps with
  | [] => None
  | part :: rest =>
      match inlineData part with
      | Some d => Some d
      | None => firstInline rest
      end
  end.

(** [parts.find((p) => p.text)]. *)
Fixpoint findText (ps : list Part) : option Part :=
  match ps with
  | [] => None
  | part :: rest => if truthy (text part) then Some part else findText rest
  end.

Definition pngHeader : string := "data:image/png;base64,".

Definition extractImageOrThrow (response : Response) (defaultError : string)
  : completion string :=
  let ps := partsOf response in
  match firstInline ps with
  | Some d => Return (String.append pngHeader d)
  | None =>
      match findText ps with
      | Some textPart =>
          match text textPart with
          | Some t =>
              if String.eqb t "" then Throw (newError defaultError)
              else Throw (newError t)
          | None => Throw (newError defaultError)
          end
      | None => Throw (newError defaultError)
      end
  end.

(** [str] without the leading [header], when it starts with it. *)
Definition dropHeader (header str : string) : option string :=
  if String.prefix header str
  then Some (String.substring (String.length header)
               (String.length str - String.length header) str)
  else None.

(** [imageBase64.replace(/^data:image\/(png|jpeg|jpg);base64,/, '')]. *)
Definition cleanBase64 (imageBase64 : string) : string :=
  match dropHeader "data:image/png;base64," imageBase64 with
  | Some rest => rest
  | None =>
      match dropHeader "data:image/jpeg;base64," imageBase64 with
      | Some rest => rest
      | None =>
          match dropHeader "data:image/jpg;base64," imageBase64 with
          | Some rest => rest
          | None => imageBase64
          end
      end
  end.

(** The request of [editPixelSprite]: the model, the inline image with its
    MIME type, and the instruction. *)
Record EditRequest := mkEditRequest {
  model : string;
  imageData : string;
  mimeType : string;
  instruction : string
}.

(** [editPixelSprite(imageBase64, editPrompt)], with [generateContent] the
    call to the model; the [catch] logs and throws the error again. *)
Definition editPixelSprite
    (generateContent : EditRequest -> completion Response)
    (imageBase64 editPrompt : string) : completion string :=
  let cleanBase64 := cleanBase64 imageBase64 in
  match generateContent
          (mkEditRequest "gemini-2.5-flash-image" cleanBase64 "image/png"
             (String.append "Edit this pixel art image. Instruction: "
                (String.append editPrompt
                   ". Maintain the pixel art style and resolution."))) with
  | Return response => extractImageOrThrow response "Failed to edit image"
  | Throw error => Throw error
  end.

End Gemini.

(** ** The generation handlers of [App] *)

Module App.

(** [window.aistudio]: what its two calls answer. *)
Record AiStudio := mkAiStudio {
  hasSelectedApiKey : completion bool;
  openSelectKey : completion unit
}.

(** [ensureApiKey()]. *)
Definition ensureApiKey (aistudio : option AiStudio) : completion unit :=
  match aistudio with
  | Some studio =>
      match hasSelectedApiKey studio with
      | Return hasKey =>
          if negb hasKey then openSelectKey studio else Return tt
      | Throw err => Throw err
      end
  | None => Return tt
  end.

Definition keyUpdated : string :=
  "Đã cập nhật quyền truy cập. Vui lòng thử lại.".

Definition generationFailed : string :=
  "Đã xảy ra lỗi trong quá trình tạo.".

(** The test of [handleApiError] on the message. *)
Definition needsKey (errorMessage : string) : bool :=
  includes errorMessage "403" ||
  includes errorMessage "Permission" ||
  includes errorMessage "permission" ||
  includes errorMessage "not found" ||
  includes errorMessage "404" ||
  includes errorMessage "API key".

(** [handleApiError(err)]: the message it passes to [setError]. *)
Definition handleApiError (aistudio : option AiStudio) (err : JsError) : string :=
  let errorMessage := orElse (message err) (asString err) in
  let shown := orElse (Some errorMessage) generationFailed in
  if needsKey errorMessage then
    match aistudio with
    | Some studio =>
        match openSelectKey studio with
        | Return _ => keyUpdated
        | Throw _ => shown
        end
    | None => shown
    end
  else shown.

(** The part of the state [handleEdit] reads and writes. *)
Record State := mkState {
  generatedImage : option string;
  isGenerating : bool;
  error : option string;
  editPrompt : string
}.

(** [handleEdit()]: the state it leaves and, when the handler itself
    rejects, the error it rejects with.  [keyReady] is the completion of
    [await ensureApiKey()], [aistudio] is [window.aistudio] when
    [handleApiError] runs. *)
Definition handleEdit (keyReady : completion unit)
    (aistudio : option AiStudio)
    (generateContent : Gemini.EditRequest -> completion Gemini.Response)
    (st : State) : State * option JsError :=
  match generatedImage st with
  | None => (st, None)
  | Some image =>
      if String.eqb image "" || String.eqb (editPrompt st) "" then (st, None)
      else
        match keyReady with
        | Throw err => (mkState (Some image) true None (editPrompt st), Some err)
        | Return _ =>
            match Gemini.editPixelSprite generateContent image (editPrompt st) with
            | Return result => (mkState (Some result) false None "", None)
            | Throw err =>
                (mkState (Some image) false
                   (Some (handleApiError aistudio err)) (editPrompt st), None)
            end
        end
  end.

(** *** Custom styles *)

Record SavedStyle := mkSavedStyle {
  id : string;
  name : string;
  prompt : string
}.

(** The item [pixelDreamer_customStyles] of the local storage: absent, a
    text [JSON.parse] rejects, or the text of a list of styles. *)
Inductive Stored := Missing | Unreadable | Styles (styles : list SavedStyle).

(** The initialiser of [savedStyles]. *)
Definition loadSavedStyles (stored : Stored) : list SavedStyle :=
  match stored with
  | Styles styles => styles
  | _ => []
  end.

(** Code points that [trim] removes, by their UTF-8 bytes: the white space
    and the line terminators of ECMAScript. *)
Definition white1 (a : Ascii.ascii) : bool :=
  let n := Ascii.N_of_ascii a in
  ((9 <=? n) && (n <=? 13) || (n =? 32))%N.

Definition white2 (a b : Ascii.ascii) : bool :=
  ((Ascii.N_of_ascii a =? 194) && (Ascii.N_of_ascii b =? 160))%N.

Definition white3 (a b c : Ascii.ascii) : bool :=
  let x := Ascii.N_of_ascii a in
  let y := Ascii.N_of_ascii b in
  let z := Ascii.N_of_ascii c in
  ((x =? 225) && (y =? 154) && (z =? 128) ||
   (x =? 226) && (y =? 128) &&
     ((128 <=? z) && (z <=? 138) || (z =? 168) || (z =? 169) || (z =? 175)) ||
   (x =? 226) && (y =? 129) && (z =? 159) ||
   (x =? 227) && (y =? 128) && (z =? 128) ||
   (x =? 239) && (y =? 187) && (z =? 191))%N.

(** [!str.trim()]: the string is empty or all white space. *)
Fixpoint isBlank (str : string) : bool :=
  match str with
  | EmptyString => true
  | String a s1 =>
      if white1 a then isBlank s1
      else
        match s1 with
        | String b s2 =>
            if white2 a b then isBlank s2
            else
              match s2 with
              | String c s3 => if white3 a b c then isBlank s3 else false
              | EmptyString => false
              end
        | EmptyString => false
        end
  end.

Record StylePanel := mkStylePanel {
  savedStyles : list SavedStyle;
  styleName : string;
  customStyle : string;
  storage : Stored
}.

(** The state after the first render, from the stored item. *)
Definition initialStyles (stored : Stored) : StylePanel :=
  mkStylePanel (loadSavedStyles stored) "" "" stored.

(** [saveCustomStyle()], with [now] the text of [Date.now()]. *)
Definition saveCustomStyle (now : string) (st : StylePanel) : StylePanel :=
  if isBlank (customStyle st) || isBlank (styleName st) then st
  else
    let newStyle := mkSavedStyle now (styleName st) (customStyle st) in
    let updated := savedStyles st ++ [newStyle] in
    mkStylePanel updated "" (customStyle st) (Styles updated).

(** [deleteCustomStyle(id)]. *)
Definition deleteCustomStyle (id0 : string) (st : StylePanel) : StylePanel :=
  let updated :=
    List.filter (fun s => negb (String.eqb (id s) id0)) (savedStyles st) in
  mkStylePanel updated (styleName st) (customStyle st) (Styles updated).

(** [loadCustomStyle(prompt)]. *)
Definition loadCustomStyle (prompt0 : string) (st : StylePanel) : StylePanel :=
  mkStylePanel (savedStyles st) (styleName st) prompt0 (storage st).

(** What the user does in the style panel. *)
Inductive StyleAction :=
| TypeName (str : string)
| TypeStyle (str : string)
| Save (now : string)
| Delete (id0 : string)
| Load (prompt0 : string).

Definition act (st : StylePanel) (a : StyleAction) : StylePanel :=
  match a with
  | TypeName str => mkStylePanel (savedStyles st) str (customStyle st) (storage st)
  | TypeStyle str => mkStylePanel (savedStyles st) (styleName st) str (storage st)
  | Save now => saveCustomStyle now st
  | Delete id0 => deleteCustomStyle id0 st
  | Load prompt0 => loadCustomStyle prompt0 st
  end.

End App.

(** Two pixels of one colour, side by side. *)
Definition twins : ImageData :=
  mkImageData 2 1 [5; 5; 5; 255;  5; 5; 5; 255].

(** The cell of a sheet: the largest width and the largest height. *)
Definition cellWidth (imgs : list Sheet.Image) : Z :=
  match imgs with
  | [] => 0
  | i0 :: others => Sheet.maxOf (Sheet.width i0) (Sheet.width <$> others)
  end.

Definition cellHeight (imgs : list Sheet.Image) : Z :=
  match imgs with
  | [] => 0
  | i0 :: others => Sheet.maxOf (Sheet.height i0) (Sheet.height <$> others)
  end.

(** ** Sample states of the handlers *)

(** An image and an instruction, ready to be edited. *)
Definition editing : App.State :=
  App.mkState (Some "data:image/png;base64,AAAA"%string) false None
    "make it red".

(** A model that answers every request with one inline image. *)
Definition answering (request : Gemini.EditRequest) : completion Gemini.Response :=
  Return (Gemini.mkResponse
            (Some [Gemini.mkCandidate
                     (Some (Gemini.mkContent
                              (Some [Gemini.mkPart (Some "BBBB"%string) None])))])).

(** A style panel with one saved style and a new one typed in. *)
Definition panel : App.StylePanel :=
  App.mkStylePanel [App.mkSavedStyle "1700000000000" "Noir" "black and white"]
    "Mecha" "robots, hard edges"
    (App.Styles [App.mkSavedStyle "1700000000000" "Noir" "black and white"]).

(** * Typed-array lemmas *)

Lemma wr_length d i v : length (wr d i v) = length d.
Proof. unfold wr. destruct (i <? 0); [done | by rewrite length_insert]. Qed.

Lemma rd_wr_ne d i j v : i <> j -> rd (wr d i v) j = rd d j.
Proof.
  unfold rd, wr. intros Hij.
  destruct (Z.ltb_spec i 0), (Z.ltb_spec j 0); try done.
  apply list_lookup_insert_ne. lia.
Qed.

Lemma rd_wr_eq d i v :
  0 <= i < Z.of_nat (length d) -> rd (wr d i v) i = Some (clamp8 v).
Proof.
  unfold rd, wr. intros Hi. destruct (Z.ltb_spec i 0); [lia |].
  apply list_lookup_insert_eq. lia.
Qed.

Lemma rd_is_Some d i : is_Some (rd d i) <-> 0 <= i < Z.of_nat (length d).
Proof.
  unfold rd. destruct (Z.ltb_spec i 0).
  - split; [intros [? ?]; done | lia].
  - rewrite lookup_lt_is_Some. lia.
Qed.

Lemma rd_None d i : rd d i = None <-> i < 0 \/ Z.of_nat (length d) <= i.
Proof.
  rewrite eq_None_not_Some, rd_is_Some. lia.
Qed.

Lemma clamp8_id v : 0 <= v <= 255 -> clamp8 v = v.
Proof. unfold clamp8. lia. Qed.

Lemma strictEq_true a b : strictEq a b = true <-> a = b.
Proof.
  destruct a as [m|], b as [n|]; simpl; try (split; congruence).
  rewrite Z.eqb_eq. split; congruence.
Qed.

Lemma matchesTarget_true tR tG tB tA d i :
  matchesTarget tR tG tB tA d i = true <-> pixel d i = (tR, tG, tB, tA).
Proof.
  unfold matchesTarget, pixel. rewrite !andb_true_iff, !strictEq_true.
  split; [intros [[[-> ->] ->] ->]; done | intros [= -> -> -> ->]; done].
Qed.

Lemma fillPixel_length c d i : length (fillPixel c d i) = length d.
Proof. unfold fillPixel. by rewrite !wr_length. Qed.

Lemma rd_fillPixel_out c d i k :
  k < i \/ i + 3 < k -> rd (fillPixel c d i) k = rd d k.
Proof.
  intros Hk. unfold fillPixel. rewrite !rd_wr_ne by lia. done.
Qed.

Lemma pixel_fillPixel_ne c d i j :
  j + 3 < i \/ i + 3 < j -> pixel (fillPixel c d i) j = pixel d j.
Proof.
  intros Hk. unfold pixel. rewrite !rd_fillPixel_out by lia. done.
Qed.

Lemma pixel_fillPixel_eq c d i :
  0 <= i -> i + 3 < Z.of_nat (length d) ->
  pixel (fillPixel c d i) i =
    (Some (clamp8 (r c)), Some (clamp8 (g c)), Some (clamp8 (b c)), Some fillA).
Proof.
  intros H0 H3. unfold pixel, fillPixel.
  rewrite rd_wr_eq by (rewrite !wr_length; lia).
  rewrite (rd_wr_ne _ (i + 3) (i + 2)) by lia.
  rewrite rd_wr_eq by (rewrite !wr_length; lia).
  rewrite (rd_wr_ne _ (i + 3) (i + 1)), (rd_wr_ne _ (i + 2) (i + 1)) by lia.
  rewrite rd_wr_eq by (rewrite !wr_length; lia).
  rewrite (rd_wr_ne _ (i + 3) i), (rd_wr_ne _ (i + 2) i),
    (rd_wr_ne _ (i + 1) i) by lia.
  rewrite rd_wr_eq by lia.
  done.
Qed.

(** * Geometry of the buffer *)

Lemma outside_false img x y :
  outside (width img) (height img) x y = false <-> inBounds img (x, y).
Proof.
  unfold outside, inBounds. simpl.
  rewrite !orb_false_iff, !Z.ltb_ge, !Z.geb_leb, !Z.leb_gt. lia.
Qed.

Lemma outside_true img x y :
  outside (width img) (height img) x y = true <-> ~ inBounds img (x, y).
Proof.
  rewrite <- outside_false. destruct (outside _ _ x y); split; congruence.
Qed.

Lemma inBounds_linear img p :
  inBounds img p ->
  0 <= p.2 * width img + p.1 < width img * height img.
Proof. unfold inBounds. destruct p as [x y]; simpl. nia. Qed.

Lemma inBounds_byteIndex img p :
  Z.of_nat (length (data img)) = width img * height img * 4 ->
  inBounds img p ->
  0 <= byteIndex img p /\ byteIndex img p + 3 < Z.of_nat (length (data img)).
Proof.
  intros Hlen Hp. pose proof (inBounds_linear img p Hp). unfold byteIndex. lia.
Qed.

Lemma byteIndex_apart img p q :
  inBounds img p -> inBounds img q -> p <> q ->
  byteIndex img q + 3 < byteIndex img p \/ byteIndex img p + 3 < byteIndex img q.
Proof.
  unfold inBounds, byteIndex. destruct p as [x y], q as [x' y']; simpl.
  intros Hp Hq Hne.
  assert (y * width img + x <> y' * width img + x') as Hlin.
  { intros Heq. apply Hne.
    assert (y = y') by nia. subst. f_equal. lia. }
  lia.
Qed.

Lemma region_inBounds img seed p : region img seed p -> inBounds img p.
Proof. by destruct 1. Qed.

Lemma region_color img seed p :
  region img seed p -> colorAt img p = colorAt img seed.
Proof. by destruct 1. Qed.

Lemma adjacent_neighbours x y q :
  adjacent (x, y) q <->
  q ∈ [(x, y - 1); (x, y + 1); (x - 1, y); (x + 1, y)].
Proof.
  unfold adjacent. simpl. rewrite !elem_of_cons, elem_of_nil. tauto.
Qed.

(** * The invariant of the fill loop *)

Section FillInvariant.
Variables (img : ImageData) (c : rgb) (seed : Z * Z).
Variables (tR tG tB tA : option Z).
Hypothesis Hlen : Z.of_nat (length (data img)) = width img * height img * 4.
Hypothesis Hc : rgb8 c.
Hypothesis Htarget : colorAt img seed = (tR, tG, tB, tA).
Hypothesis Hdiffer : (tR, tG, tB, tA) <> newColor c.

Lemma fillInv_start : fillInv img c seed (data img) [seed].
Proof.
  split.
  - done.
  - intros p _. by left.
  - intros s Hs Hin _. apply list_elem_of_singleton in Hs as ->.
    by apply region_seed.
  - intros p q Hp Hfilled. exfalso. apply Hdiffer.
    rewrite <- Htarget, <- (region_color _ _ _ Hp). exact Hfilled.
  - intros _. right. apply list_elem_of_singleton. done.
Qed.

Lemma fillInv_frontier d s s' :
  (forall x, x ∈ s <-> x ∈ s') -> fillInv img c seed d s -> fillInv img c seed d s'.
Proof.
  intros Hs [I1 I2 I3 I4 I5]. split; try done.
  - intros x Hx. apply I3. by apply Hs.
  - intros p q Hp Hf Ha Hq Hcol.
    destruct (I4 p q Hp Hf Ha Hq Hcol) as [?|?]; [by left | right; by apply Hs].
  - intros Hseed. destruct (I5 Hseed) as [?|?]; [by left | right; by apply Hs].
Qed.

Lemma filled_pixel d p :
  length d = length (data img) -> inBounds img p ->
  pixelAt img (fillPixel c d (byteIndex img p)) p = newColor c.
Proof.
  intros Hd Hp. unfold pixelAt.
  destruct (inBounds_byteIndex img p Hlen Hp) as [H0 H3].
  rewrite pixel_fillPixel_eq by (rewrite ?Hd; lia).
  destruct Hc as (Hr & Hg & Hb). unfold newColor.
  by rewrite !clamp8_id.
Qed.

Lemma other_pixel d p q :
  inBounds img p -> inBounds img q -> p <> q ->
  pixelAt img (fillPixel c d (byteIndex img p)) q = pixelAt img d q.
Proof.
  intros Hp Hq Hne. unfold pixelAt. apply pixel_fillPixel_ne.
  destruct (byteIndex_apart img p q Hp Hq Hne); lia.
Qed.

(** A turn of the loop on any entry [top] of the frontier keeps the
    invariant. *)
Lemma fillInv_step d frontier top rest d' frontier' :
  fillInv img c seed d frontier ->
  top ∈ frontier ->
  (forall s, s ∈ rest -> s ∈ frontier) ->
  (forall s, s ∈ frontier -> s = top \/ s ∈ rest) ->
  fillStep (width img) (height img) tR tG tB tA c d top rest = (d', frontier') ->
  fillInv img c seed d' frontier'.
Proof.
  intros [I1 I2 I3 I4 I5] Htop Hsub Hsup. destruct top as [x y].
  unfold fillStep.
  destruct (outside (width img) (height img) x y) eqn:Hout.
  { (* popped and dropped by the boundary check *)
    apply outside_true in Hout. intros [= <- <-]. split; try done.
    - intros s Hs. apply I3. by apply Hsub.
    - intros p q Hp Hf Ha Hq Hcol.
      destruct (I4 p q Hp Hf Ha Hq Hcol) as [?|Hin]; [by left | right].
      destruct (Hsup q Hin) as [-> | ?]; [contradiction | done].
    - intros Hseed. destruct (I5 Hseed) as [?|Hin]; [by left | right].
      destruct (Hsup seed Hin) as [-> | ?]; [contradiction | done]. }
  apply outside_false in Hout.
  change ((y * width img + x) * 4) with (byteIndex img (x, y)).
  destruct (matchesTarget tR tG tB tA d (byteIndex img (x, y))) eqn:Hm.
  2:{ (* in bounds, another colour *)
    assert (pixelAt img d (x, y) <> (tR, tG, tB, tA)) as Hnot.
    { intros Heq. apply matchesTarget_true in Heq. unfold pixelAt in *.
      congruence. }
    assert (forall q, q ∈ frontier -> inBounds img q ->
              colorAt img q = colorAt img seed ->
              pixelAt img d q = newColor c \/ q ∈ rest) as Hkeep.
    { intros q Hin Hq Hcol. destruct (Hsup q Hin) as [-> | ?]; [| by right].
      destruct (I2 (x, y) Hout) as [Hsame | [_ Hf]]; [| by left].
      exfalso. apply Hnot. by rewrite Hsame, Hcol. }
    intros [= <- <-]. split; try done.
    - intros s Hs. apply I3. by apply Hsub.
    - intros p q Hp Hf Ha Hq Hcol.
      destruct (I4 p q Hp Hf Ha Hq Hcol) as [?|Hin]; [by left | by apply Hkeep].
    - intros Hseed. destruct (I5 Hseed) as [?|Hin]; [by left |].
      by apply Hkeep. }
  (* in bounds, the target colour: filled, neighbours pushed *)
  apply matchesTarget_true in Hm. fold (pixelAt img d (x, y)) in Hm.
  assert (colorAt img (x, y) = colorAt img seed) as Hcol0.
  { destruct (I2 (x, y) Hout) as [Hsame | [_ Hf]]; [congruence |].
    exfalso. apply Hdiffer. congruence. }
  assert (region img seed (x, y)) as Hreg by (by apply I3).
  intros [= <- <-].
  assert (forall q, inBounds img q -> pixelAt img d q = newColor c ->
            pixelAt img (fillPixel c d (byteIndex img (x, y))) q = newColor c)
    as Hstay.
  { intros q Hq Hf. destruct (decide (q = (x, y))) as [-> | Hne].
    - by apply filled_pixel.
    - rewrite other_pixel; done. }
  assert (forall q, q ∈ frontier -> inBounds img q ->
            pixelAt img (fillPixel c d (byteIndex img (x, y))) q = newColor c \/
            q ∈ (x, y - 1) :: (x, y + 1) :: (x - 1, y) :: (x + 1, y) :: rest)
    as Hkeep.
  { intros q Hin Hq. destruct (Hsup q Hin) as [-> | ?].
    - left. by apply filled_pixel.
    - right. rewrite !elem_of_cons. tauto. }
  split.
  - by rewrite fillPixel_length.
  - intros p Hp. destruct (decide (p = (x, y))) as [-> | Hne].
    + right. split; [done | by apply filled_pixel].
    + rewrite other_pixel by done. by apply I2.
  - intros s Hs Hin Hcol.
    rewrite !elem_of_cons in Hs.
    assert (adjacent (x, y) s \/ s ∈ rest) as [Ha | Hr].
    { rewrite adjacent_neighbours, !elem_of_cons, elem_of_nil. tauto. }
    + by apply (region_step img seed (x, y) s).
    + apply I3; [by apply Hsub | done | done].
  - intros p q Hp Hf Ha Hq Hcol.
    destruct (decide (p = (x, y))) as [-> | Hne].
    + right. apply adjacent_neighbours in Ha.
      rewrite !elem_of_cons in *. rewrite elem_of_nil in Ha. tauto.
    + rewrite other_pixel in Hf by (try done; by eapply region_inBounds).
      destruct (I4 p q Hp Hf Ha Hq Hcol) as [? | Hin].
      * left. by apply Hstay.
      * by apply Hkeep.
  - intros Hseed. destruct (I5 Hseed) as [? | Hin].
    + left. by apply Hstay.
    + by apply Hkeep.
Qed.

(** With an empty frontier the invariant is the specification. *)
Lemma fillInv_done d p :
  fillInv img c seed d [] -> inBounds img seed -> inBounds img p ->
  (region img seed p -> pixelAt img d p = newColor c) /\
  (~ region img seed p -> pixelAt img d p = colorAt img p).
Proof.
  intros [I1 I2 I3 I4 I5] Hseed Hp. split.
  - clear Hp. induction 1 as [Hs | p q Hreg IH Ha Hq Hcol].
    + destruct (I5 Hs) as [? | Hin]; [done | by apply elem_of_nil in Hin].
    + destruct (I4 p q Hreg IH Ha Hq Hcol) as [? | Hin];
        [done | by apply elem_of_nil in Hin].
  - intros Hnot. destruct (I2 p Hp) as [? | [? _]]; [done | contradiction].
Qed.

End FillInvariant.

(** * Termination of the fill loop *)

Lemma countIf_le f f' n :
  (forall k, (k < n)%nat -> f' k = true -> f k = true) ->
  (countIf f' n <= countIf f n)%nat.
Proof.
  induction n as [| n IH]; intros Himp; simpl; [lia |].
  assert (countIf f' n <= countIf f n)%nat
    by (apply IH; intros k Hk; apply Himp; lia).
  destruct (f' n) eqn:Hf'; [rewrite (Himp n) by (done || lia) |];
    destruct (f n); lia.
Qed.

Lemma countIf_lt f f' n m :
  (forall k, (k < n)%nat -> f' k = true -> f k = true) ->
  (m < n)%nat -> f m = true -> f' m = false ->
  (countIf f' n < countIf f n)%nat.
Proof.
  induction n as [| n IH]; intros Himp Hm Hfm Hfm'; simpl; [lia |].
  destruct (decide (m = n)) as [-> | Hne].
  - rewrite Hfm, Hfm'.
    assert (countIf f' n <= countIf f n)%nat
      by (apply countIf_le; intros k Hk; apply Himp; lia).
    lia.
  - assert (countIf f' n < countIf f n)%nat
      by (apply IH; [intros k Hk; apply Himp; lia | lia | done | done]).
    destruct (f' n) eqn:Hf'; [rewrite (Himp n) by (done || lia) |];
      destruct (f n); lia.
Qed.

Lemma countIf_bound f n : (countIf f n <= n)%nat.
Proof. induction n; simpl; [lia | destruct (f n); lia]. Qed.

Section FillTermination.
Variables (img : ImageData) (c : rgb) (seed : Z * Z).
Variables (tR tG tB tA : option Z).
Hypothesis Hlen : Z.of_nat (length (data img)) = width img * height img * 4.
Hypothesis Hc : rgb8 c.
Hypothesis Hdiffer : (tR, tG, tB, tA) <> newColor c.

Lemma pending_fillPixel d p :
  length d = length (data img) -> inBounds img p ->
  pixelAt img d p = (tR, tG, tB, tA) ->
  (pending img tR tG tB tA (fillPixel c d (byteIndex img p))
   < pending img tR tG tB tA d)%nat.
Proof.
  intros Hd Hp Hm. unfold pending.
  pose proof (inBounds_linear img p Hp) as Hlin.
  destruct (inBounds_byteIndex img p Hlen Hp) as [H0 H3].
  set (m := Z.to_nat (p.2 * width img + p.1)).
  assert (Z.of_nat m * 4 = byteIndex img p) as Hmidx
    by (unfold byteIndex, m; lia).
  apply (countIf_lt _ _ _ m).
  - intros k Hk Hk'. apply matchesTarget_true in Hk'. apply matchesTarget_true.
    destruct (decide (k = m)) as [-> | Hne].
    + rewrite Hmidx. exact Hm.
    + rewrite <- Hk'. symmetry. apply pixel_fillPixel_ne. lia.
  - unfold m. lia.
  - apply matchesTarget_true. rewrite Hmidx. exact Hm.
  - apply not_true_iff_false. intros Heq. apply matchesTarget_true in Heq.
    rewrite Hmidx in Heq. apply Hdiffer. rewrite <- Heq.
    rewrite pixel_fillPixel_eq by (rewrite ?Hd; lia).
    destruct Hc as (Hr & Hg & Hb). unfold newColor. by rewrite !clamp8_id.
Qed.

(** Every turn lowers [4 * pending + length of the stack]. *)
Lemma fillStep_measure d top rest d' pixelStack' :
  length d = length (data img) ->
  fillStep (width img) (height img) tR tG tB tA c d top rest = (d', pixelStack') ->
  (4 * pending img tR tG tB tA d' + length pixelStack'
   < 4 * pending img tR tG tB tA d + length (top :: rest))%nat.
Proof.
  intros Hd. destruct top as [x y]. unfold fillStep.
  destruct (outside (width img) (height img) x y) eqn:Hout.
  { intros [= <- <-]. simpl. lia. }
  apply outside_false in Hout.
  change ((y * width img + x) * 4) with (byteIndex img (x, y)).
  destruct (matchesTarget tR tG tB tA d (byteIndex img (x, y))) eqn:Hm.
  2:{ intros [= <- <-]. simpl. lia. }
  apply matchesTarget_true in Hm. intros [= <- <-].
  pose proof (pending_fillPixel d (x, y) Hd Hout Hm). simpl. lia.
Qed.

Hypothesis Htarget : colorAt img seed = (tR, tG, tB, tA).

(** With that much fuel the loop runs to the end of the frontier, and ends
    in a buffer that satisfies the invariant. *)
Lemma fillLoop_returns fuel d pixelStack :
  fillInv img c seed d pixelStack ->
  (4 * pending img tR tG tB tA d + length pixelStack <= fuel)%nat ->
  exists d',
    fillLoop (width img) (height img) tR tG tB tA c fuel d pixelStack = Some d' /\
    fillInv img c seed d' [].
Proof.
  revert d pixelStack.
  induction fuel as [| fuel IH]; intros d pixelStack Hinv Hfuel.
  - destruct pixelStack as [| top rest]; [| simpl in Hfuel; lia].
    exists d. done.
  - destruct pixelStack as [| top rest]; [exists d; done |].
    simpl.
    destruct (fillStep (width img) (height img) tR tG tB tA c d top rest)
      as [d1 s1] eqn:Hstep.
    pose proof (fillStep_measure d top rest d1 s1 (inv_length _ _ _ _ _ Hinv) Hstep).
    apply IH; [| lia].
    eapply (fillInv_step img c seed tR tG tB tA); try eassumption.
    + apply elem_of_cons. by left.
    + intros s Hs. apply elem_of_cons. by right.
    + intros s Hs. by apply elem_of_cons in Hs.
Qed.

Lemma pending_start :
  (4 * pending img tR tG tB tA (data img) + length [seed]
   <= length (data img) + 1)%nat.
Proof.
  unfold pending.
  pose proof (countIf_bound
    (fun k => matchesTarget tR tG tB tA (data img) (Z.of_nat k * 4))
    (Z.to_nat (width img * height img))) as Hb.
  simpl. lia.
Qed.

(** Any run over the frontier, in any order, keeps the invariant too. *)
Lemma fillRun_inv d frontier d' :
  fillRun img tR tG tB tA c d frontier d' ->
  fillInv img c seed d frontier -> fillInv img c seed d' [].
Proof.
  induction 1 as [d | d before top after d1 f1 f2 d2 Hstep Hperm Hrun IH];
    intros Hinv; [done |].
  apply IH. apply (fillInv_frontier img c seed d1 f1 f2).
  { intros s. by rewrite Hperm. }
  eapply (fillInv_step img c seed tR tG tB tA); try eassumption.
  - rewrite elem_of_app, elem_of_cons. tauto.
  - intros s. rewrite !elem_of_app, elem_of_cons. tauto.
  - intros s. rewrite !elem_of_app, elem_of_cons. tauto.
Qed.

End FillTermination.

(** * floodFill *)

(** Two buffers of the image's size that agree on every in-bounds pixel are
    the same buffer. *)
Lemma buffer_ext img d1 d2 :
  0 < width img ->
  Z.of_nat (length d1) = width img * height img * 4 ->
  length d2 = length d1 ->
  (forall p, inBounds img p -> pixelAt img d1 p = pixelAt img d2 p) ->
  d1 = d2.
Proof.
  intros HW Hlen1 Hlen2 Hpix. apply list_eq. intros i.
  destruct (decide (i < length d1)%nat) as [Hi | Hi].
  2:{ rewrite !lookup_ge_None_2 by lia. done. }
  set (n := Z.of_nat i / 4).
  assert (0 <= n < width img * height img) as Hn.
  { unfold n. split; [apply Z.div_pos; lia |].
    apply Z.div_lt_upper_bound; lia. }
  assert (inBounds img (n mod width img, n / width img)) as Hp.
  { unfold inBounds; simpl. split; [apply Z.mod_pos_bound; lia |].
    split; [apply Z.div_pos; lia |]. apply Z.div_lt_upper_bound; lia. }
  specialize (Hpix _ Hp). unfold pixelAt, byteIndex, pixel in Hpix. simpl in Hpix.
  assert (n / width img * width img + n mod width img = n) as Hdm
    by (pose proof (Z.div_mod n (width img)); lia).
  rewrite Hdm in Hpix.
  assert (Z.of_nat i = n * 4 + Z.of_nat i mod 4) as Hi4
    by (unfold n; pose proof (Z.div_mod (Z.of_nat i) 4); lia).
  assert (forall d, d !! i = rd d (Z.of_nat i)) as Hrd.
  { intros d. unfold rd. destruct (Z.ltb_spec (Z.of_nat i) 0); [lia |].
    by rewrite Nat2Z.id. }
  rewrite !Hrd, Hi4.
  pose proof (Z.mod_pos_bound (Z.of_nat i) 4 ltac:(lia)) as Hk.
  injection Hpix as H0 H1 H2 H3.
  assert (Z.of_nat i mod 4 = 0 \/ Z.of_nat i mod 4 = 1 \/
          Z.of_nat i mod 4 = 2 \/ Z.of_nat i mod 4 = 3) as Hcase by lia.
  destruct Hcase as [-> | [-> | [-> | ->]]]; rewrite ?Z.add_0_r; done.
Qed.

(** The loop of the code is one of the runs of [fillRun]. *)
Lemma fillLoop_fillRun img tR tG tB tA c fuel d pixelStack d' :
  fillLoop (width img) (height img) tR tG tB tA c fuel d pixelStack = Some d' ->
  fillRun img tR tG tB tA c d pixelStack d'.
Proof.
  revert d pixelStack. induction fuel as [| fuel IH]; intros d pixelStack.
  - destruct pixelStack; [intros [= ->]; constructor | done].
  - destruct pixelStack as [| top rest]; [intros [= ->]; constructor |].
    cbn [fillLoop].
    destruct (fillStep (width img) (height img) tR tG tB tA c d top rest)
      as [d1 s1] eqn:Hstep.
    intros Hloop.
    apply (fillRun_pick img tR tG tB tA c d [] top rest d1 s1 s1 d');
      [exact Hstep | done | by apply IH].
Qed.

Lemma fill_guard img c startX startY :
  strictEq (rd (data img) ((startY * width img + startX) * 4)) (Some (r c)) &&
  strictEq (rd (data img) ((startY * width img + startX) * 4 + 1)) (Some (g c)) &&
  strictEq (rd (data img) ((startY * width img + startX) * 4 + 2)) (Some (b c)) &&
  strictEq (rd (data img) ((startY * width img + startX) * 4 + 3)) (Some fillA)
  = true
  <-> colorAt img (startX, startY) = newColor c.
Proof.
  rewrite !andb_true_iff, !strictEq_true.
  unfold colorAt, pixelAt, byteIndex, pixel, newColor. simpl.
  split; [intros [[[-> ->] ->] ->]; done | intros [= -> -> -> ->]; done].
Qed.

Lemma fillInv_done_unique img c seed d1 d2 p :
  fillInv img c seed d1 [] -> fillInv img c seed d2 [] ->
  inBounds img seed -> inBounds img p ->
  pixelAt img d1 p = pixelAt img d2 p.
Proof.
  intros H1 H2 Hseed Hp.
  destruct (inv_frame _ _ _ _ _ H1 p Hp) as [E1 | [R1 E1]],
           (inv_frame _ _ _ _ _ H2 p Hp) as [E2 | [R2 E2]];
    try congruence.
  - rewrite E2. clear E1 E2 Hp. induction R2 as [Hs | p q Hreg IH Ha Hq Hcol].
    + destruct (inv_seed _ _ _ _ _ H1 Hs) as [? | Hin];
        [done | by apply elem_of_nil in Hin].
    + destruct (inv_closed _ _ _ _ _ H1 p q Hreg IH Ha Hq Hcol) as [? | Hin];
        [done | by apply elem_of_nil in Hin].
  - rewrite E1. symmetry. clear E1 E2 Hp.
    induction R1 as [Hs | p q Hreg IH Ha Hq Hcol].
    + destruct (inv_seed _ _ _ _ _ H2 Hs) as [? | Hin];
        [done | by apply elem_of_nil in Hin].
    + destruct (inv_closed _ _ _ _ _ H2 p q Hreg IH Ha Hq Hcol) as [? | Hin];
        [done | by apply elem_of_nil in Hin].
Qed.

(** What a call with an in-bounds seed returns: the buffer [d'] of the
    result, pixel by pixel, and the fact that every other order of visiting
    the frontier ends in the same buffer. *)
Lemma floodFill_result img c startX startY fuel :
  Z.of_nat (length (data img)) = width img * height img * 4 ->
  rgb8 c ->
  inBounds img (startX, startY) ->
  (length (data img) + 1 <= fuel)%nat ->
  exists d',
    floodFill fuel img c startX startY
      = Some (mkImageData (width img) (height img) d') /\
    length d' = length (data img) /\
    (colorAt img (startX, startY) = newColor c -> d' = data img) /\
    (forall p, inBounds img p ->
       (pixelAt img d' p = colorAt img p \/
        (region img (startX, startY) p /\ pixelAt img d' p = newColor c)) /\
       (region img (startX, startY) p -> pixelAt img d' p = newColor c)) /\
    floodFillAnyOrder img c startX startY
      (mkImageData (width img) (height img) d') /\
    (forall img'', floodFillAnyOrder img c startX startY img'' ->
       img'' = mkImageData (width img) (height img) d').
Proof.
  intros Hlen Hc Hseed Hfuel.
  unfold floodFill, floodFillAnyOrder.
  destruct (strictEq _ _ && _ && _ && _) eqn:Hguard.
  - apply fill_guard in Hguard. exists (data img).
    split; [by destruct img |]. split; [done |]. split; [done |]. split.
    + intros p Hp. split; [by left |]. intros Hreg.
      change (colorAt img p = newColor c).
      by rewrite (region_color _ _ _ Hreg).
    + split; [by destruct img |]. intros img'' ->. by destruct img.
  - assert (colorAt img (startX, startY) <> newColor c) as Hdiffer.
    { intros Heq. apply fill_guard in Heq. congruence. }
    set (tI := (startY * width img + startX) * 4) in *.
    assert (colorAt img (startX, startY) =
            (rd (data img) tI, rd (data img) (tI + 1),
             rd (data img) (tI + 2), rd (data img) (tI + 3))) as Htarget by done.
    rewrite Htarget in Hdiffer.
    destruct (fillLoop_returns img c (startX, startY) _ _ _ _ Hlen Hc Hdiffer
                Htarget fuel (data img) [(startX, startY)]) as (d' & Hrun & Hinv).
    { eapply fillInv_start; eassumption. }
    { pose proof (pending_start img (startX, startY)
                    (rd (data img) tI) (rd (data img) (tI + 1))
                    (rd (data img) (tI + 2)) (rd (data img) (tI + 3)) Hlen).
      lia. }
    exists d'. rewrite Hrun.
    split; [done |]. split; [by apply (inv_length _ _ _ _ _ Hinv) |].
    split; [intros Heq; rewrite Htarget in Heq; contradiction |]. split.
    + intros p Hp. split; [by apply (inv_frame _ _ _ _ _ Hinv) |].
      intros Hreg.
      by apply (fillInv_done img c (startX, startY) d' p Hinv Hseed Hp).
    + split; [exists d'; split; [by eapply fillLoop_fillRun | done] |].
      intros img'' (d'' & Hany & ->). f_equal.
      assert (fillInv img c (startX, startY) d'' []) as Hinv''.
      { eapply (fillRun_inv img c (startX, startY)); try eassumption.
        eapply fillInv_start; eassumption. }
      apply (buffer_ext img).
      * unfold inBounds in Hseed; simpl in Hseed; lia.
      * rewrite (inv_length _ _ _ _ _ Hinv''). done.
      * rewrite (inv_length _ _ _ _ _ Hinv), (inv_length _ _ _ _ _ Hinv''). done.
      * intros p Hp.
        by apply (fillInv_done_unique img c (startX, startY)).
Qed.

Lemma floodFill_same_color img c startX startY fuel :
  colorAt img (startX, startY) = newColor c ->
  floodFill fuel img c startX startY = Some img.
Proof.
  intros Heq. apply fill_guard in Heq. unfold floodFill. by rewrite Heq.
Qed.

(** C1. With an in-bounds seed, [floodFill] returns a buffer of the same
    size in which exactly the pixels of the 4-connected component of the
    seed, among the pixels that have the seed's exact RGBA colour, have the
    new colour; every other pixel is as before; and every run that visits
    the frontier in another order (the code's own order is one of them) ends
    in the same buffer. *)
Theorem floodFill_fills_region img c startX startY fuel :
  wellFormed img ->
  rgb8 c ->
  inBounds img (startX, startY) ->
  (length (data img) + 1 <= fuel)%nat ->
  exists img',
    floodFill fuel img c startX startY = Some img' /\
    width img' = width img /\ height img' = height img /\
    length (data img') = length (data img) /\
    (forall p, inBounds img p ->
       (region img (startX, startY) p -> colorAt img' p = newColor c) /\
       (~ region img (startX, startY) p -> colorAt img' p = colorAt img p)) /\
    floodFillAnyOrder img c startX startY img' /\
    (forall img'', floodFillAnyOrder img c startX startY img'' -> img'' = img').
Proof.
  intros [Hlen _] Hc Hseed Hfuel.
  destruct (floodFill_result img c startX startY fuel Hlen Hc Hseed Hfuel)
    as (d' & Hret & Hlen' & _ & Hpix & Hown & Hany).
  exists (mkImageData (width img) (height img) d').
  split; [done |]. split; [done |]. split; [done |]. split; [done |].
  split; [| done].
  intros p Hp. destruct (Hpix p Hp) as [Hframe Hfill].
  split; [exact Hfill |].
  intros Hnot. destruct Hframe as [? | [? _]]; [done | contradiction].
Qed.

Lemma floodFill_fills_region_witness :
  exists img',
    floodFill 17 checker (mkRgb 7 7 7) 0 0 = Some img' /\
    width img' = width checker /\ height img' = height checker /\
    length (data img') = length (data checker) /\
    (forall p, inBounds checker p ->
       (region checker (0, 0) p -> colorAt img' p = newColor (mkRgb 7 7 7)) /\
       (~ region checker (0, 0) p -> colorAt img' p = colorAt checker p)) /\
    floodFillAnyOrder checker (mkRgb 7 7 7) 0 0 img' /\
    (forall img'',
       floodFillAnyOrder checker (mkRgb 7 7 7) 0 0 img'' -> img'' = img').
Proof.
  apply (floodFill_fills_region checker (mkRgb 7 7 7) 0 0 17).
  - split; [reflexivity | repeat constructor; lia].
  - unfold rgb8; simpl; lia.
  - unfold inBounds; simpl; lia.
  - simpl; lia.
Defined.

(** Pixels that touch only by a corner are not connected: the fill of one
    corner of [checker] leaves the opposite corner alone. *)
Example floodFill_no_diagonal :
  floodFill 17 checker (mkRgb 7 7 7) 0 0 =
    Some (mkImageData 2 2 [7; 7; 7; 255;  90; 90; 90; 255;
                           90; 90; 90; 255;  10; 20; 30; 255]).
Proof. reflexivity. Qed.

(** C7. A second [floodFill] with the same arguments returns the buffer of
    the first; and when the seed pixel already has the new colour the first
    call returns the buffer it was given. *)
Theorem floodFill_idempotent img c startX startY fuel :
  wellFormed img ->
  rgb8 c ->
  inBounds img (startX, startY) ->
  (length (data img) + 1 <= fuel)%nat ->
  exists img',
    floodFill fuel img c startX startY = Some img' /\
    floodFill fuel img' c startX startY = Some img' /\
    (colorAt img (startX, startY) = newColor c -> img' = img).
Proof.
  intros [Hlen _] Hc Hseed Hfuel.
  destruct (floodFill_result img c startX startY fuel Hlen Hc Hseed Hfuel)
    as (d' & Hret & _ & Hsame & Hpix & _ & _).
  exists (mkImageData (width img) (height img) d').
  split; [done |]. split.
  - apply floodFill_same_color.
    apply (Hpix (startX, startY) Hseed). by apply region_seed.
  - intros Heq. rewrite (Hsame Heq). by destruct img.
Qed.

Lemma floodFill_idempotent_witness :
  exists img',
    floodFill 17 checker (mkRgb 7 7 7) 0 0 = Some img' /\
    floodFill 17 img' (mkRgb 7 7 7) 0 0 = Some img' /\
    (colorAt checker (0, 0) = newColor (mkRgb 7 7 7) -> img' = checker).
Proof.
  apply (floodFill_idempotent checker (mkRgb 7 7 7) 0 0 17).
  - split; [reflexivity | repeat constructor; lia].
  - unfold rgb8; simpl; lia.
  - unfold inBounds; simpl; lia.
  - simpl; lia.
Defined.

(** C10. The alpha [floodFill] writes is 255: a pixel it changes ends with
    alpha 255, and when the seed has the fill colour's RGB with an alpha
    other than 255 the call does change the buffer, every pixel of the
    seed's region going from that alpha to 255. *)
Theorem floodFill_makes_opaque img c startX startY fuel :
  wellFormed img ->
  rgb8 c ->
  inBounds img (startX, startY) ->
  (length (data img) + 1 <= fuel)%nat ->
  exists img',
    floodFill fuel img c startX startY = Some img' /\
    (forall p, inBounds img p -> colorAt img' p <> colorAt img p ->
       (colorAt img' p).2 = Some 255) /\
    (forall a,
       colorAt img (startX, startY)
         = (Some (r c), Some (g c), Some (b c), Some a) ->
       a <> 255 ->
       img' <> img /\
       forall p, region img (startX, startY) p ->
         colorAt img p = (Some (r c), Some (g c), Some (b c), Some a) /\
         colorAt img' p = (Some (r c), Some (g c), Some (b c), Some 255)).
Proof.
  intros [Hlen _] Hc Hseed Hfuel.
  destruct (floodFill_result img c startX startY fuel Hlen Hc Hseed Hfuel)
    as (d' & Hret & _ & _ & Hpix & _ & _).
  exists (mkImageData (width img) (height img) d').
  split; [done |]. split.
  - intros p Hp Hchanged. destruct (Hpix p Hp) as [[Hsame | [_ Hnew]] _].
    + contradiction.
    + change (colorAt (mkImageData (width img) (height img) d') p)
        with (pixelAt img d' p). by rewrite Hnew.
  - intros a Ha Hna.
    assert (forall p, region img (startX, startY) p ->
              colorAt (mkImageData (width img) (height img) d') p = newColor c)
      as Hfill.
    { intros p Hreg. apply (Hpix p (region_inBounds _ _ _ Hreg)). exact Hreg. }
    split.
    + intros Heq. specialize (Hfill _ (region_seed img _ Hseed)).
      rewrite Heq, Ha in Hfill. unfold newColor, fillA in Hfill. congruence.
    + intros p Hreg. split.
      * by rewrite (region_color _ _ _ Hreg).
      * by apply Hfill.
Qed.

Lemma floodFill_makes_opaque_witness :
  exists img',
    floodFill 9 translucent (mkRgb 7 7 7) 0 0 = Some img' /\
    (forall p, inBounds translucent p ->
       colorAt img' p <> colorAt translucent p ->
       (colorAt img' p).2 = Some 255) /\
    (forall a,
       colorAt translucent (0, 0) = (Some 7, Some 7, Some 7, Some a) ->
       a <> 255 ->
       img' <> translucent /\
       forall p, region translucent (0, 0) p ->
         colorAt translucent p = (Some 7, Some 7, Some 7, Some a) /\
         colorAt img' p = (Some 7, Some 7, Some 7, Some 255)).
Proof.
  apply (floodFill_makes_opaque translucent (mkRgb 7 7 7) 0 0 9).
  - split; [reflexivity | repeat constructor; lia].
  - unfold rgb8; simpl; lia.
  - unfold inBounds; simpl; lia.
  - simpl; lia.
Defined.

(** The translucent pixel is raised to alpha 255, alone. *)
Example floodFill_translucent :
  floodFill 9 translucent (mkRgb 7 7 7) 0 0 =
    Some (mkImageData 2 1 [7; 7; 7; 255;  7; 7; 7; 255]).
Proof. reflexivity. Qed.

(** * The frontier stack *)

Lemma fillStep_outside img tR tG tB tA c d top rest :
  ~ inBounds img top ->
  fillStep (width img) (height img) tR tG tB tA c d top rest = (d, rest).
Proof.
  destruct top as [x y]. intros Hout. apply outside_true in Hout.
  unfold fillStep. by rewrite Hout.
Qed.

Lemma fillStep_pushes img tR tG tB tA c d top rest d' pixelStack' s :
  fillStep (width img) (height img) tR tG tB tA c d top rest
    = (d', pixelStack') ->
  s ∈ pixelStack' -> s ∈ rest \/ (inBounds img top /\ adjacent top s).
Proof.
  destruct top as [x y]. unfold fillStep.
  destruct (outside (width img) (height img) x y) eqn:Hout;
    [intros [= <- <-]; by left |].
  apply outside_false in Hout.
  destruct (matchesTarget _ _ _ _ _ _); [| intros [= <- <-]; by left].
  intros [= <- <-] Hs. rewrite adjacent_neighbours.
  rewrite !elem_of_cons in *. rewrite elem_of_nil. tauto.
Qed.

(** C9, as the code has it.  The neighbours are pushed unchecked, so the
    stack does hold out-of-bounds coordinates; the boundary check is made
    when an entry is popped.  In every state of the loop each stack entry is
    the seed or a 4-neighbour of an in-bounds pixel, and an out-of-bounds
    entry that is popped is dropped: the buffer stays as it is and nothing
    is pushed. *)
Theorem floodFill_stack_entries img tR tG tB tA c seed d pixelStack :
  loopState img tR tG tB tA c seed d pixelStack ->
  (forall s, s ∈ pixelStack ->
     s = seed \/ exists p, inBounds img p /\ adjacent p s) /\
  (forall top rest, pixelStack = top :: rest -> ~ inBounds img top ->
     fillStep (width img) (height img) tR tG tB tA c d top rest = (d, rest)).
Proof.
  intros Hstate. split.
  - induction Hstate as [| d top rest d' pixelStack' Hprev IH Hstep].
    + intros s Hs. left. by apply list_elem_of_singleton in Hs.
    + intros s Hs.
      destruct (fillStep_pushes _ _ _ _ _ _ _ _ _ _ _ _ Hstep Hs)
        as [Hrest | [Htop Hadj]].
      * apply IH. apply elem_of_cons. by right.
      * right. by exists top.
  - intros top rest _ Hout. by apply fillStep_outside.
Qed.

Lemma floodFill_stack_entries_witness :
  (forall s, s ∈ [(0, -1); (0, 1); (-1, 0); (1, 0)] ->
     s = (0, 0) \/ exists p, inBounds onePixel p /\ adjacent p s) /\
  (forall top rest,
     [(0, -1); (0, 1); (-1, 0); (1, 0)] = top :: rest ->
     ~ inBounds onePixel top ->
     fillStep (width onePixel) (height onePixel)
       (Some 1) (Some 2) (Some 3) (Some 255) (mkRgb 7 7 7)
       [7; 7; 7; 255] top rest = ([7; 7; 7; 255], rest)).
Proof.
  apply (floodFill_stack_entries onePixel (Some 1) (Some 2) (Some 3) (Some 255)
           (mkRgb 7 7 7) (0, 0)).
  apply (loopState_next _ _ _ _ _ _ _ (data onePixel) (0, 0) []).
  - apply loopState_start.
  - reflexivity.
Defined.

(** C9, as stated, fails: after the first turn on a one-pixel buffer the
    stack holds the four neighbours of the seed, none of them in bounds. *)
Lemma floodFill_stack_counterexample :
  loopState onePixel (Some 1) (Some 2) (Some 3) (Some 255) (mkRgb 7 7 7) (0, 0)
    [7; 7; 7; 255] [(0, -1); (0, 1); (-1, 0); (1, 0)] /\
  ~ (forall s, s ∈ [(0, -1); (0, 1); (-1, 0); (1, 0)] -> inBounds onePixel s).
Proof.
  split.
  - apply (loopState_next _ _ _ _ _ _ _ (data onePixel) (0, 0) []).
    + apply loopState_start.
    + reflexivity.
  - intros Hall. specialize (Hall (0, -1)).
    unfold inBounds in Hall; simpl in Hall.
    assert ((0, -1) ∈ [(0, -1); (0, 1); (-1, 0); (1, 0)]) as Hin
      by (apply elem_of_cons; by left).
    specialize (Hall Hin). lia.
Qed.

(** * removeColor *)

Lemma rd_ext d1 d2 : (forall j, rd d1 j = rd d2 j) -> d1 = d2.
Proof.
  intros Hrd. apply list_eq. intros i. specialize (Hrd (Z.of_nat i)).
  unfold rd in Hrd. destruct (Z.ltb_spec (Z.of_nat i) 0); [lia |].
  by rewrite Nat2Z.id in Hrd.
Qed.

Lemma gtZero_is_Some a : gtZero a = true -> is_Some a.
Proof. destruct a; [eauto | done]. Qed.

Section MaskLoop.
Variables (r0 g0 b0 : option Z).

Lemma maskTest_in_range d i :
  maskTest r0 g0 b0 d i = true -> 0 <= i + 3 < Z.of_nat (length d).
Proof.
  unfold maskTest. rewrite !andb_true_iff. intros (_ & Ha).
  apply rd_is_Some. by apply gtZero_is_Some.
Qed.

Lemma maskAt_length d i : length (maskAt r0 g0 b0 d i) = length d.
Proof. unfold maskAt. destruct (maskTest _ _ _ _ _); [apply wr_length | done]. Qed.

Lemma rd_maskAt d i j :
  rd (maskAt r0 g0 b0 d i) j =
    if maskTest r0 g0 b0 d i && (j =? i + 3) then Some 0 else rd d j.
Proof.
  unfold maskAt. destruct (maskTest r0 g0 b0 d i) eqn:Ht; simpl; [| done].
  destruct (Z.eqb_spec j (i + 3)) as [-> | Hne].
  - apply maskTest_in_range in Ht. by rewrite rd_wr_eq.
  - by rewrite rd_wr_ne.
Qed.

(** A turn at [i] does not change what the test reads at another pixel. *)
Lemma maskTest_maskAt d i i' :
  i mod 4 = 0 -> i' mod 4 = 0 -> i <> i' ->
  maskTest r0 g0 b0 (maskAt r0 g0 b0 d i) i' = maskTest r0 g0 b0 d i'.
Proof.
  intros Hi Hi' Hne. unfold maskTest at 1 2. rewrite !rd_maskAt.
  assert (forall k, 0 <= k <= 3 -> (i' + k =? i + 3) = false) as Hk.
  { intros k Hk. apply Z.eqb_neq. Z.div_mod_to_equations. lia. }
  assert ((i' =? i + 3) = false) as H0
    by (rewrite <- (Hk 0) by lia; by rewrite Z.add_0_r).
  rewrite H0, !Hk by lia. by rewrite !andb_false_r.
Qed.

Lemma foldl_maskAt_length l d :
  length (foldl (maskAt r0 g0 b0) d l) = length d.
Proof.
  revert d. induction l as [| i l IH]; intros d; simpl; [done |].
  by rewrite IH, maskAt_length.
Qed.

(** The loop over distinct pixel starts: byte [j] is zeroed exactly when it
    is the alpha byte of a visited pixel that passes the test on the buffer
    the loop started from. *)
Lemma rd_foldl_maskAt l d j :
  Forall (fun i => i mod 4 = 0) l -> NoDup l ->
  rd (foldl (maskAt r0 g0 b0) d l) j =
    if bool_decide (j - 3 ∈ l) && maskTest r0 g0 b0 d (j - 3)
    then Some 0 else rd d j.
Proof.
  revert d. induction l as [| i l IH]; intros d Hall Hnd; cbn [foldl].
  { rewrite bool_decide_eq_false_2 by apply not_elem_of_nil. done. }
  apply Forall_cons in Hall as [Hi Hall]. apply NoDup_cons in Hnd as [Hnotin Hnd].
  rewrite IH by done. rewrite rd_maskAt.
  destruct (decide (j - 3 ∈ l)) as [Hin | Hout].
  - assert (i <> j - 3) as Hne by (intros ->; contradiction).
    rewrite Forall_forall in Hall.
    rewrite maskTest_maskAt by (try done; by apply Hall).
    rewrite (bool_decide_eq_true_2 _ Hin).
    rewrite bool_decide_eq_true_2 by (apply elem_of_cons; by right).
    assert ((j =? i + 3) = false) as -> by (apply Z.eqb_neq; lia).
    by rewrite andb_false_r.
  - rewrite (bool_decide_eq_false_2 _ Hout). simpl.
    destruct (Z.eqb_spec j (i + 3)) as [-> | Hne].
    + replace (i + 3 - 3) with i by lia.
      rewrite bool_decide_eq_true_2 by (apply elem_of_cons; by left).
      by rewrite andb_true_r.
    + rewrite bool_decide_eq_false_2, andb_false_r; [done |].
      rewrite elem_of_cons. intros [? | ?]; [lia | contradiction].
Qed.

Lemma maskIndices_elem len i :
  i ∈ maskIndices len <-> i mod 4 = 0 /\ 0 <= i < Z.of_nat len.
Proof.
  unfold maskIndices. rewrite list_elem_of_fmap.
  pose proof (Nat.div_mod_eq (len + 3) 4) as Hdm.
  pose proof (Nat.mod_upper_bound (len + 3) 4 ltac:(lia)) as Hmb.
  split.
  - intros (k & -> & Hk). apply elem_of_seq in Hk.
    split; [Z.div_mod_to_equations; lia | lia].
  - intros (Hmod & Hi). exists (Z.to_nat (i / 4)). split.
    + Z.div_mod_to_equations. lia.
    + apply elem_of_seq. Z.div_mod_to_equations. lia.
Qed.

Lemma maskIndices_NoDup len : NoDup (maskIndices len).
Proof.
  unfold maskIndices. apply NoDup_fmap_2; [| apply NoDup_seq].
  intros k k' Heq. lia.
Qed.

Lemma maskLoop_length d : length (maskLoop r0 g0 b0 d) = length d.
Proof. apply foldl_maskAt_length. Qed.

(** The whole loop, byte by byte. *)
Lemma rd_maskLoop d j :
  rd (maskLoop r0 g0 b0 d) j =
    if ((j - 3) mod 4 =? 0) && maskTest r0 g0 b0 d (j - 3)
    then Some 0 else rd d j.
Proof.
  unfold maskLoop. rewrite rd_foldl_maskAt.
  - destruct (maskTest r0 g0 b0 d (j - 3)) eqn:Ht;
      [| by rewrite !andb_false_r].
    rewrite !andb_true_r. apply maskTest_in_range in Ht.
    destruct (Z.eqb_spec ((j - 3) mod 4) 0) as [Hmod | Hmod].
    + rewrite bool_decide_eq_true_2; [done |].
      apply maskIndices_elem. split; [done |].
      Z.div_mod_to_equations. lia.
    + rewrite bool_decide_eq_false_2; [done |].
      rewrite maskIndices_elem. tauto.
  - apply Forall_forall. intros i Hi. by apply maskIndices_elem in Hi as [? _].
  - apply maskIndices_NoDup.
Qed.

End MaskLoop.

Lemma byteIndex_mod img p : byteIndex img p mod 4 = 0.
Proof. unfold byteIndex. apply Z.mod_mul. lia. Qed.

Lemma pixel_maskLoop r0 g0 b0 d i :
  i mod 4 = 0 ->
  pixel (maskLoop r0 g0 b0 d) i =
    if maskTest r0 g0 b0 d i
    then (rd d i, rd d (i + 1), rd d (i + 2), Some 0)
    else pixel d i.
Proof.
  intros Hi. unfold pixel. rewrite !rd_maskLoop.
  assert (((i - 3) mod 4 =? 0) = false) as ->
    by (apply Z.eqb_neq; Z.div_mod_to_equations; lia).
  assert (((i + 1 - 3) mod 4 =? 0) = false) as ->
    by (apply Z.eqb_neq; Z.div_mod_to_equations; lia).
  assert (((i + 2 - 3) mod 4 =? 0) = false) as ->
    by (apply Z.eqb_neq; Z.div_mod_to_equations; lia).
  replace (i + 3 - 3) with i by lia.
  assert ((i mod 4 =? 0) = true) as -> by (by apply Z.eqb_eq).
  simpl. by destruct (maskTest r0 g0 b0 d i).
Qed.

Lemma wellFormed_byte img i v :
  wellFormed img -> rd (data img) i = Some v -> 0 <= v <= 255.
Proof.
  intros [_ Hall] Hrd. unfold rd in Hrd.
  destruct (i <? 0); [done |].
  rewrite Forall_lookup in Hall. by apply (Hall _ _ Hrd).
Qed.

(** C2. With an in-bounds seed of nonzero alpha, [removeColor] zeroes the
    alpha of every pixel of the buffer, connected to the seed or not, whose
    R, G and B are each within 15 of the seed's and whose alpha is nonzero,
    and keeps its RGB; a pixel that fails the test is left as it is.  With
    the seed (100,100,100), a pixel (114,100,100) is masked and a pixel
    (116,100,100) is not. *)
Theorem removeColor_masks img startX startY r0 g0 b0 a0 :
  wellFormed img ->
  inBounds img (startX, startY) ->
  colorAt img (startX, startY) = (Some r0, Some g0, Some b0, Some a0) ->
  a0 <> 0 ->
  (forall q r1 g1 b1 a1,
     inBounds img q ->
     colorAt img q = (Some r1, Some g1, Some b1, Some a1) ->
     (Z.abs (r1 - r0) <= 15 /\ Z.abs (g1 - g0) <= 15 /\
      Z.abs (b1 - b0) <= 15 /\ a1 <> 0 ->
      colorAt (removeColor img startX startY) q
        = (Some r1, Some g1, Some b1, Some 0)) /\
     (~ (Z.abs (r1 - r0) <= 15 /\ Z.abs (g1 - g0) <= 15 /\
         Z.abs (b1 - b0) <= 15 /\ a1 <> 0) ->
      colorAt (removeColor img startX startY) q = colorAt img q)) /\
  (r0 = 100 -> g0 = 100 -> b0 = 100 ->
   forall q a1, inBounds img q -> a1 <> 0 ->
     (colorAt img q = (Some 114, Some 100, Some 100, Some a1) ->
      colorAt (removeColor img startX startY) q
        = (Some 114, Some 100, Some 100, Some 0)) /\
     (colorAt img q = (Some 116, Some 100, Some 100, Some a1) ->
      colorAt (removeColor img startX startY) q
        = (Some 116, Some 100, Some 100, Some a1))).
Proof.
  intros Hwf Hseed Hcol Ha.
  assert (forall q r1 g1 b1 a1,
    colorAt img q = (Some r1, Some g1, Some b1, Some a1) ->
    colorAt (removeColor img startX startY) q =
      if (Z.abs (r1 - r0) <=? 15) && (Z.abs (g1 - g0) <=? 15) &&
         (Z.abs (b1 - b0) <=? 15) && (0 <? a1)
      then (Some r1, Some g1, Some b1, Some 0)
      else (Some r1, Some g1, Some b1, Some a1)) as Hmask.
  { intros q r1 g1 b1 a1 Hq. unfold removeColor.
    injection Hcol as Hr Hg Hb Halpha. injection Hq as Hr1 Hg1 Hb1 Ha1.
    unfold byteIndex in *. simpl in *.
    rewrite Hr, Hg, Hb, Halpha. simpl.
    assert ((a0 =? 0) = false) as -> by (by apply Z.eqb_neq).
    change (colorAt ?i q) with (pixel (data i) (byteIndex i q)).
    cbn [data width height]. rewrite pixel_maskLoop by apply byteIndex_mod.
    unfold maskTest, byteIndex. simpl.
    rewrite Hr1, Hg1, Hb1, Ha1. simpl. unfold tolerance.
    destruct (_ && _ && _ && _); [done |].
    unfold pixel. by rewrite Hr1, Hg1, Hb1, Ha1. }
  assert (forall q a1 v, rd (data img) (byteIndex img q + 3) = Some a1 ->
            a1 <> 0 -> v = a1 -> 0 < v) as Hpos.
  { intros q a1 v Hrd Hne ->.
    pose proof (wellFormed_byte img _ _ Hwf Hrd). lia. }
  split.
  - intros q r1 g1 b1 a1 Hq Hcolq. rewrite (Hmask _ _ _ _ _ Hcolq).
    assert (a1 <> 0 -> 0 < a1) as Hgt.
    { intros Hne. injection Hcolq as _ _ _ Ha1. by eapply Hpos. }
    split.
    + intros (Hr & Hg & Hb & Hne).
      rewrite !(proj2 (Z.leb_le _ _)), (proj2 (Z.ltb_lt _ _)) by auto. done.
    + intros Hnot. rewrite Hcolq.
      destruct (_ && _ && _ && _) eqn:Ht; [| done].
      rewrite !andb_true_iff, !Z.leb_le, Z.ltb_lt in Ht.
      exfalso. apply Hnot. repeat split; try tauto. lia.
  - intros -> -> -> q a1 Hq Hne. split; intros Hcolq;
      rewrite (Hmask _ _ _ _ _ Hcolq).
    + assert (0 < a1) as Hgt
        by (injection Hcolq as _ _ _ Ha1; by eapply Hpos).
      by rewrite (proj2 (Z.ltb_lt _ _)) by done.
    + done.
Qed.

Lemma removeColor_masks_witness :
  (forall q r1 g1 b1 a1,
     inBounds greys q ->
     colorAt greys q = (Some r1, Some g1, Some b1, Some a1) ->
     (Z.abs (r1 - 100) <= 15 /\ Z.abs (g1 - 100) <= 15 /\
      Z.abs (b1 - 100) <= 15 /\ a1 <> 0 ->
      colorAt (removeColor greys 0 0) q
        = (Some r1, Some g1, Some b1, Some 0)) /\
     (~ (Z.abs (r1 - 100) <= 15 /\ Z.abs (g1 - 100) <= 15 /\
         Z.abs (b1 - 100) <= 15 /\ a1 <> 0) ->
      colorAt (removeColor greys 0 0) q = colorAt greys q)) /\
  (100 = 100 -> 100 = 100 -> 100 = 100 ->
   forall q a1, inBounds greys q -> a1 <> 0 ->
     (colorAt greys q = (Some 114, Some 100, Some 100, Some a1) ->
      colorAt (removeColor greys 0 0) q
        = (Some 114, Some 100, Some 100, Some 0)) /\
     (colorAt greys q = (Some 116, Some 100, Some 100, Some a1) ->
      colorAt (removeColor greys 0 0) q
        = (Some 116, Some 100, Some 100, Some a1))).
Proof.
  apply (removeColor_masks greys 0 0 100 100 100 255).
  - split; [reflexivity | repeat constructor; lia].
  - unfold inBounds; simpl; lia.
  - reflexivity.
  - lia.
Defined.

(** The tolerance boundary on a row of three pixels, and the reach of the
    mask beyond the seed's neighbourhood. *)
Example removeColor_tolerance_boundary :
  removeColor greys 0 0 =
    mkImageData 3 1 [100; 100; 100; 0;  114; 100; 100; 0;
                     116; 100; 100; 255].
Proof. reflexivity. Qed.

Example removeColor_is_global :
  removeColor checker 0 0 =
    mkImageData 2 2 [10; 20; 30; 0;  90; 90; 90; 255;
                     90; 90; 90; 255;  10; 20; 30; 0].
Proof. reflexivity. Qed.

(** C8. [removeColor] never changes the R, G or B of a pixel, never changes
    a pixel whose alpha is 0, and returns the buffer it was given when the
    seed's alpha is 0. *)
Theorem removeColor_frame img startX startY :
  width (removeColor img startX startY) = width img /\
  height (removeColor img startX startY) = height img /\
  length (data (removeColor img startX startY)) = length (data img) /\
  (forall p,
     (colorAt (removeColor img startX startY) p).1 = (colorAt img p).1) /\
  (forall p, (colorAt img p).2 = Some 0 ->
     colorAt (removeColor img startX startY) p = colorAt img p) /\
  ((colorAt img (startX, startY)).2 = Some 0 ->
   removeColor img startX startY = img).
Proof.
  unfold removeColor.
  destruct (strictEq (rd (data img) ((startY * width img + startX) * 4 + 3))
              (Some 0)) eqn:Hseed.
  { repeat split; done. }
  split; [done |]. split; [done |]. split; [apply maskLoop_length |].
  split; [| split].
  - intros p.
    change (colorAt ?i p) with (pixel (data i) (byteIndex i p)).
    cbn [data width height]. change (byteIndex _ p) with (byteIndex img p).
    rewrite pixel_maskLoop by apply byteIndex_mod.
    by destruct (maskTest _ _ _ _ _).
  - intros p Halpha.
    change (colorAt ?i p) with (pixel (data i) (byteIndex i p)).
    cbn [data width height]. change (byteIndex _ p) with (byteIndex img p).
    rewrite pixel_maskLoop by apply byteIndex_mod.
    unfold maskTest.
    change (rd (data img) (byteIndex img p + 3) = Some 0) in Halpha.
    rewrite Halpha. simpl. by rewrite !andb_false_r.
  - intros Halpha.
    change (rd (data img) ((startY * width img + startX) * 4 + 3) = Some 0)
      in Halpha.
    rewrite Halpha in Hseed. done.
Qed.

(** * Seeds outside the buffer *)

Lemma absDiffLe_undefined a t : absDiffLe a None t = false.
Proof. by destruct a. Qed.

Lemma maskLoop_undefined g0 b0 d : maskLoop None g0 b0 d = d.
Proof.
  apply rd_ext. intros j. rewrite rd_maskLoop. unfold maskTest.
  rewrite absDiffLe_undefined. simpl. by rewrite andb_false_r.
Qed.

(** C5, as the code has it.  Neither function has an error path.  With a
    seed outside the buffer [floodFill] returns the buffer it was given:
    the seed is popped and dropped by the boundary check.  [removeColor]
    makes no check of the seed; it returns the buffer it was given when the
    seed's byte index [(startY * width + startX) * 4] is outside the data
    array. *)
Theorem outOfBounds_seed img c startX startY fuel :
  ~ inBounds img (startX, startY) ->
  (1 <= fuel)%nat ->
  floodFill fuel img c startX startY = Some img /\
  (byteIndex img (startX, startY) < 0 \/
   Z.of_nat (length (data img)) <= byteIndex img (startX, startY) ->
   removeColor img startX startY = img).
Proof.
  intros Hout Hfuel. split.
  - unfold floodFill. destruct (_ && _ && _ && _); [done |].
    destruct fuel as [| fuel]; [lia |]. cbn [fillLoop].
    rewrite fillStep_outside by done.
    destruct img; by destruct fuel.
  - intros Hidx. unfold removeColor.
    change ((startY * width img + startX) * 4)
      with (byteIndex img (startX, startY)).
    pose proof (byteIndex_mod img (startX, startY)) as Hmod.
    assert (rd (data img) (byteIndex img (startX, startY)) = None) as ->
      by (apply rd_None; lia).
    assert (rd (data img) (byteIndex img (startX, startY) + 3) = None) as ->.
    { apply rd_None. Z.div_mod_to_equations. lia. }
    simpl. rewrite maskLoop_undefined. by destruct img.
Qed.

Lemma outOfBounds_seed_witness :
  floodFill 1 column (mkRgb 7 7 7) 0 2 = Some column /\
  (byteIndex column (0, 2) < 0 \/
   Z.of_nat (length (data column)) <= byteIndex column (0, 2) ->
   removeColor column 0 2 = column).
Proof.
  apply (outOfBounds_seed column (mkRgb 7 7 7) 0 2 1).
  - unfold inBounds; simpl; lia.
  - lia.
Defined.

(** C5, as stated, fails: the seed (1, 0) is outside the one-column buffer,
    yet [floodFill] returns the buffer (a silent no-op, not an error), and
    [removeColor] reads the pixel (0, 1) as the seed colour and masks the
    buffer. *)
Lemma outOfBounds_seed_counterexample :
  ~ inBounds column (1, 0) /\
  floodFill 9 column (mkRgb 7 7 7) 1 0 = Some column /\
  removeColor column 1 0 = mkImageData 1 2 [1; 2; 3; 0;  9; 9; 9; 0] /\
  removeColor column 1 0 <> column.
Proof.
  split; [unfold inBounds; simpl; lia |].
  split; [reflexivity |]. split; [reflexivity |]. discriminate.
Qed.

(** * The sprite sheet *)

Lemma maxOf_ge x xs : x <= Sheet.maxOf x xs.
Proof.
  unfold Sheet.maxOf. revert x. induction xs as [| y ys IH]; intros x; simpl.
  - lia.
  - specialize (IH (Z.max x y)). lia.
Qed.

Lemma maxOf_upper x xs v : v ∈ x :: xs -> v <= Sheet.maxOf x xs.
Proof.
  unfold Sheet.maxOf. revert x. induction xs as [| y ys IH]; intros x Hv; simpl.
  - apply list_elem_of_singleton in Hv as ->. lia.
  - apply elem_of_cons in Hv as [-> | Hv].
    + pose proof (maxOf_ge (Z.max x y) ys). unfold Sheet.maxOf in *. lia.
    + apply elem_of_cons in Hv as [-> | Hv].
      * pose proof (maxOf_ge (Z.max x y) ys). unfold Sheet.maxOf in *. lia.
      * apply IH. apply elem_of_cons. by right.
Qed.

Lemma maxOf_attained x xs : Sheet.maxOf x xs ∈ x :: xs.
Proof.
  unfold Sheet.maxOf. revert x. induction xs as [| y ys IH]; intros x; simpl.
  - apply elem_of_cons. by left.
  - specialize (IH (Z.max x y)). apply elem_of_cons in IH as [Heq | Hin].
    + rewrite Heq. destruct (Z.max_spec x y) as [[_ ->] | [_ ->]].
      * apply elem_of_cons. right. apply elem_of_cons. by left.
      * apply elem_of_cons. by left.
    + apply elem_of_cons. right. apply elem_of_cons. by right.
Qed.

Lemma ceilDiv_spec n c :
  0 < c -> c * (Sheet.ceilDiv n c - 1) < n <= c * Sheet.ceilDiv n c.
Proof.
  intros Hc. unfold Sheet.ceilDiv.
  pose proof (Z.div_mod (- n) c ltac:(lia)).
  pose proof (Z.mod_pos_bound (- n) c Hc). nia.
Qed.

Lemma maxOf_maximum x xs : maximumOf (Sheet.maxOf x xs) (x :: xs).
Proof. split; [apply maxOf_attained | intros v; apply maxOf_upper]. Qed.

(** C3. For a non-empty list of N images and at least one column, the
    canvas is [columns * cellW + (columns - 1) * spacing] wide and
    [rows * cellH + (rows - 1) * spacing] high, with [cellW] and [cellH] the
    largest width and height of the images and [rows] the ceiling of
    N / columns; for a single image it is [cellW] by [cellH]. *)
Theorem assemble_canvas_size cols spacing h v imgs :
  1 <= cols ->
  imgs <> [] ->
  exists canvas cellW cellH rows,
    Sheet.assemble cols spacing h v imgs = Some canvas /\
    maximumOf cellW (Sheet.width <$> imgs) /\
    maximumOf cellH (Sheet.height <$> imgs) /\
    cols * (rows - 1) < Z.of_nat (length imgs) <= cols * rows /\
    (length imgs = 1%nat ->
     Sheet.canvasWidth canvas = cellW /\ Sheet.canvasHeight canvas = cellH) /\
    (length imgs <> 1%nat ->
     Sheet.canvasWidth canvas = cols * cellW + (cols - 1) * spacing /\
     Sheet.canvasHeight canvas = rows * cellH + (rows - 1) * spacing).
Proof.
  intros Hcols Hne. destruct imgs as [| i0 others]; [done |].
  set (imgs := i0 :: others).
  exists
    (Sheet.mkCanvas
       (if (length imgs =? 1)%nat
        then Sheet.maxOf (Sheet.width i0) (Sheet.width <$> others)
        else cols * Sheet.maxOf (Sheet.width i0) (Sheet.width <$> others)
             + (cols - 1) * spacing)
       (if (length imgs =? 1)%nat
        then Sheet.maxOf (Sheet.height i0) (Sheet.height <$> others)
        else Sheet.ceilDiv (Z.of_nat (length imgs)) cols
             * Sheet.maxOf (Sheet.height i0) (Sheet.height <$> others)
             + (Sheet.ceilDiv (Z.of_nat (length imgs)) cols - 1) * spacing)
       (imap (Sheet.place cols spacing h v
                (Sheet.maxOf (Sheet.width i0) (Sheet.width <$> others))
                (Sheet.maxOf (Sheet.height i0) (Sheet.height <$> others)))
             imgs)),
    (Sheet.maxOf (Sheet.width i0) (Sheet.width <$> others)),
    (Sheet.maxOf (Sheet.height i0) (Sheet.height <$> others)),
    (Sheet.ceilDiv (Z.of_nat (length imgs)) cols).
  split.
  { unfold Sheet.assemble. fold imgs. by destruct (length imgs =? 1)%nat. }
  split; [apply maxOf_maximum |]. split; [apply maxOf_maximum |].
  split; [apply ceilDiv_spec; lia |].
  cbn [Sheet.canvasWidth Sheet.canvasHeight].
  split; intros HN.
  - by rewrite (proj2 (Nat.eqb_eq _ _) HN).
  - by rewrite (proj2 (Nat.eqb_neq _ _) HN).
Qed.

Lemma assemble_canvas_size_witness :
  exists canvas cellW cellH rows,
    Sheet.assemble 3 2 Sheet.H.center Sheet.V.bottom fiveSprites = Some canvas /\
    maximumOf cellW (Sheet.width <$> fiveSprites) /\
    maximumOf cellH (Sheet.height <$> fiveSprites) /\
    3 * (rows - 1) < Z.of_nat (length fiveSprites) <= 3 * rows /\
    (length fiveSprites = 1%nat ->
     Sheet.canvasWidth canvas = cellW /\ Sheet.canvasHeight canvas = cellH) /\
    (length fiveSprites <> 1%nat ->
     Sheet.canvasWidth canvas = 3 * cellW + (3 - 1) * 2 /\
     Sheet.canvasHeight canvas = rows * cellH + (rows - 1) * 2).
Proof.
  apply (assemble_canvas_size 3 2 Sheet.H.center Sheet.V.bottom fiveSprites).
  - lia.
  - discriminate.
Defined.

(** Five images of at most 16 x 16 in 3 columns with spacing 2: 52 x 34. *)
Example assemble_five :
  (fun c => (Sheet.canvasWidth c, Sheet.canvasHeight c)) <$>
    Sheet.assemble 3 2 Sheet.H.center Sheet.V.bottom fiveSprites
  = Some (52, 34).
Proof. reflexivity. Qed.

(** One 10 x 10 image with spacing 5: 10 x 10. *)
Example assemble_single :
  (fun c => (Sheet.canvasWidth c, Sheet.canvasHeight c)) <$>
    Sheet.assemble 4 5 Sheet.H.center Sheet.V.bottom [Sheet.mkImage 10 10]
  = Some (10, 10).
Proof. reflexivity. Qed.

(** C4. With at least one column, image [i] of a non-empty list is drawn at
    column [i mod columns] and row [i div columns] of the grid, at the cell
    origin [(col * (cellW + spacing), row * (cellH + spacing))] plus the
    alignment offset: 0, [floor((cellW - w) / 2)] or [cellW - w] across and
    0, [floor((cellH - h) / 2)] or [cellH - h] down.  An 8 x 8 image in a
    16 x 16 cell is offset by (4, 4) when centred and by (8, 8) when aligned
    right and bottom. *)
Theorem assemble_placement cols spacing h v imgs i img :
  1 <= cols ->
  imgs !! i = Some img ->
  (exists canvas cellW cellH,
    Sheet.assemble cols spacing h v imgs = Some canvas /\
    maximumOf cellW (Sheet.width <$> imgs) /\
    maximumOf cellH (Sheet.height <$> imgs) /\
    length (Sheet.drawn canvas) = length imgs /\
    Sheet.drawn canvas !! i =
      Some (img,
            (Z.of_nat i mod cols) * (cellW + spacing) +
              match h with
              | Sheet.H.left => 0
              | Sheet.H.center => (cellW - Sheet.width img) / 2
              | Sheet.H.right => cellW - Sheet.width img
              end,
            (Z.of_nat i / cols) * (cellH + spacing) +
              match v with
              | Sheet.V.top => 0
              | Sheet.V.center => (cellH - Sheet.height img) / 2
              | Sheet.V.bottom => cellH - Sheet.height img
              end)) /\
  Sheet.xOffsetOf Sheet.H.center 16 (Sheet.mkImage 8 8) = 4 /\
  Sheet.yOffsetOf Sheet.V.center 16 (Sheet.mkImage 8 8) = 4 /\
  Sheet.xOffsetOf Sheet.H.right 16 (Sheet.mkImage 8 8) = 8 /\
  Sheet.yOffsetOf Sheet.V.bottom 16 (Sheet.mkImage 8 8) = 8.
Proof.
  intros Hcols Hi. split; [| by repeat split].
  destruct imgs as [| i0 others]; [done |].
  set (imgs := i0 :: others) in *.
  set (cellW := Sheet.maxOf (Sheet.width i0) (Sheet.width <$> others)).
  set (cellH := Sheet.maxOf (Sheet.height i0) (Sheet.height <$> others)).
  assert (exists w h', Sheet.assemble cols spacing h v imgs =
            Some (Sheet.mkCanvas w h'
                    (imap (Sheet.place cols spacing h v cellW cellH) imgs)))
    as (w & h' & Hasm).
  { unfold Sheet.assemble. fold imgs cellW cellH.
    destruct (length imgs =? 1)%nat; eauto. }
  exists (Sheet.mkCanvas w h' (imap (Sheet.place cols spacing h v cellW cellH) imgs)),
    cellW, cellH.
  split; [done |].
  split; [apply maxOf_maximum |]. split; [apply maxOf_maximum |].
  cbn [Sheet.drawn]. split; [apply length_imap |].
  rewrite list_lookup_imap, Hi. simpl. unfold Sheet.place.
  rewrite Z.rem_mod_nonneg by lia.
  unfold Sheet.xOffsetOf, Sheet.yOffsetOf. by destruct h, v.
Qed.

Lemma assemble_placement_witness :
  (exists canvas cellW cellH,
    Sheet.assemble 3 2 Sheet.H.center Sheet.V.bottom fiveSprites = Some canvas /\
    maximumOf cellW (Sheet.width <$> fiveSprites) /\
    maximumOf cellH (Sheet.height <$> fiveSprites) /\
    length (Sheet.drawn canvas) = length fiveSprites /\
    Sheet.drawn canvas !! 4%nat =
      Some (Sheet.mkImage 12 16,
            (Z.of_nat 4 mod 3) * (cellW + 2) + (cellW - 12) / 2,
            (Z.of_nat 4 / 3) * (cellH + 2) + (cellH - 16))) /\
  Sheet.xOffsetOf Sheet.H.center 16 (Sheet.mkImage 8 8) = 4 /\
  Sheet.yOffsetOf Sheet.V.center 16 (Sheet.mkImage 8 8) = 4 /\
  Sheet.xOffsetOf Sheet.H.right 16 (Sheet.mkImage 8 8) = 8 /\
  Sheet.yOffsetOf Sheet.V.bottom 16 (Sheet.mkImage 8 8) = 8.
Proof.
  apply (assemble_placement 3 2 Sheet.H.center Sheet.V.bottom fiveSprites
           4 (Sheet.mkImage 12 16)).
  - lia.
  - reflexivity.
Defined.

(** The fifth of five sprites, in 3 columns with spacing 2, centred across
    and aligned to the bottom: cell (1, 1), drawn at (20, 18). *)
Example assemble_fifth :
  (fun c => Sheet.drawn c !! 4%nat) <$>
    Sheet.assemble 3 2 Sheet.H.center Sheet.V.bottom fiveSprites
  = Some (Some (Sheet.mkImage 12 16, 20, 18)).
Proof. reflexivity. Qed.

(** C6, as the code has it.  With no image in the sheet the handler returns
    at once: the state is the one it was called in, no canvas is produced
    and no error is set.  The handler changes the error of the state only
    when the sheet is not empty and one of its images fails to load. *)
Theorem assemble_empty_returns cols spacing h v st :
  Sheet.handleAssembleSheet cols spacing h v [] st = st /\
  (forall sheetImages,
     Sheet.error (Sheet.handleAssembleSheet cols spacing h v sheetImages st)
       <> Sheet.error st ->
     sheetImages <> [] /\ Sheet.loadAll sheetImages = None).
Proof.
  split; [reflexivity |].
  intros sheetImages. unfold Sheet.handleAssembleSheet.
  destruct sheetImages as [| src srcs]; [done |].
  cbn [length Nat.eqb].
  destruct (Sheet.loadAll (src :: srcs)) as [loadedImages |]; [| done].
  destruct (Sheet.assemble cols spacing h v loadedImages); done.
Qed.

(** C6, as stated, fails: from the idle state the handler, called with no
    image, ends in the idle state, whose error is unset; a failed load, for
    comparison, does set the error. *)
Lemma assemble_empty_counterexample :
  Sheet.handleAssembleSheet 4 0 Sheet.H.center Sheet.V.bottom [] idle = idle /\
  Sheet.error
    (Sheet.handleAssembleSheet 4 0 Sheet.H.center Sheet.V.bottom [] idle)
    = None /\
  Sheet.error
    (Sheet.handleAssembleSheet 4 0 Sheet.H.center Sheet.V.bottom [None] idle)
    <> None.
Proof. split; [reflexivity |]. split; [reflexivity | discriminate]. Qed.

(** * More on the two pixel operations *)

Lemma clamp8_range v : 0 <= clamp8 v <= 255.
Proof. unfold clamp8. lia. Qed.

Lemma wr_bytes d i v :
  Forall (fun x => 0 <= x <= 255) d -> Forall (fun x => 0 <= x <= 255) (wr d i v).
Proof.
  intros Hd. unfold wr. destruct (i <? 0); [done |].
  apply Forall_insert; [done | apply clamp8_range].
Qed.

Lemma fillStep_bytes W H tR tG tB tA c d top rest d' s' :
  fillStep W H tR tG tB tA c d top rest = (d', s') ->
  length d' = length d /\
  (Forall (fun x => 0 <= x <= 255) d -> Forall (fun x => 0 <= x <= 255) d').
Proof.
  destruct top as [x y]. unfold fillStep.
  destruct (outside W H x y); [intros [= <- <-]; done |].
  destruct (matchesTarget _ _ _ _ _ _); [| intros [= <- <-]; done].
  intros [= <- <-]. split; [apply fillPixel_length |].
  intros Hd. unfold fillPixel. by repeat apply wr_bytes.
Qed.

Lemma fillLoop_bytes W H tR tG tB tA c fuel d pixelStack d' :
  fillLoop W H tR tG tB tA c fuel d pixelStack = Some d' ->
  length d' = length d /\
  (Forall (fun x => 0 <= x <= 255) d -> Forall (fun x => 0 <= x <= 255) d').
Proof.
  revert d pixelStack. induction fuel as [| fuel IH]; intros d pixelStack.
  - destruct pixelStack; [intros [= ->]; done | done].
  - destruct pixelStack as [| top rest]; [intros [= ->]; done |].
    cbn [fillLoop].
    destruct (fillStep W H tR tG tB tA c d top rest) as [d1 s1] eqn:Hstep.
    intros Hloop. destruct (fillStep_bytes _ _ _ _ _ _ _ _ _ _ _ _ Hstep) as [L1 B1].
    destruct (IH _ _ Hloop) as [L2 B2]. split; [congruence | auto].
Qed.

(** X1.  Whenever [floodFill] returns, for any seed and any fill colour, the
    buffer it returns has the size of the one it was given and is again a
    well-formed buffer. *)
Theorem floodFill_wellFormed fuel img c startX startY img' :
  wellFormed img ->
  floodFill fuel img c startX startY = Some img' ->
  wellFormed img' /\ width img' = width img /\ height img' = height img.
Proof.
  intros [Hlen Hbytes]. unfold floodFill.
  destruct (_ && _ && _ && _); [intros [= <-]; done |].
  destruct (fillLoop _ _ _ _ _ _ _ _ _ _) as [d' |] eqn:Hloop; [| done].
  intros [= <-]. destruct (fillLoop_bytes _ _ _ _ _ _ _ _ _ _ _ Hloop) as [L B].
  split; [| done]. split; simpl; [by rewrite L | auto].
Qed.

Lemma floodFill_wellFormed_witness :
  wellFormed (mkImageData 2 1 [7; 7; 7; 255;  7; 7; 7; 255]) /\
  width (mkImageData 2 1 [7; 7; 7; 255;  7; 7; 7; 255]) = width translucent /\
  height (mkImageData 2 1 [7; 7; 7; 255;  7; 7; 7; 255]) = height translucent.
Proof.
  apply (floodFill_wellFormed 9 translucent (mkRgb 7 7 7) 0 0).
  - split; [reflexivity | repeat constructor; lia].
  - reflexivity.
Defined.

Lemma lookup_rd (d : list Z) (i : nat) : d !! i = rd d (Z.of_nat i).
Proof.
  unfold rd. destruct (Z.ltb_spec (Z.of_nat i) 0); [lia |]. by rewrite Nat2Z.id.
Qed.

(** X2.  [removeColor] keeps a well-formed buffer well-formed, and a byte it
    changes is an alpha byte that goes to 0: no channel ever goes up. *)
Theorem removeColor_wellFormed img startX startY :
  wellFormed img ->
  wellFormed (removeColor img startX startY) /\
  forall j v, rd (data img) j = Some v ->
    rd (data (removeColor img startX startY)) j = Some v \/
    (rd (data (removeColor img startX startY)) j = Some 0 /\
     0 < v /\ j mod 4 = 3).
Proof.
  intros [Hlen Hbytes]. unfold removeColor.
  destruct (strictEq _ _); [split; [done | by left] |].
  cbn [data width height].
  set (d1 := maskLoop _ _ _ (data img)).
  assert (forall j v, rd (data img) j = Some v ->
            rd d1 j = Some v \/ (rd d1 j = Some 0 /\ 0 < v /\ j mod 4 = 3))
    as Hbyte.
  { intros j v Hv. unfold d1. rewrite rd_maskLoop.
    destruct (Z.eqb_spec ((j - 3) mod 4) 0) as [Hmod | _]; [| by left].
    destruct (maskTest _ _ _ _ _) eqn:Ht; [| by left].
    right. split; [done |]. split.
    - unfold maskTest in Ht. rewrite !andb_true_iff in Ht.
      destruct Ht as (_ & Ha). replace (j - 3 + 3) with j in Ha by lia.
      rewrite Hv in Ha. simpl in Ha. by apply Z.ltb_lt.
    - Z.div_mod_to_equations. lia. }
  split; [| exact Hbyte].
  split; cbn [data width height].
  - unfold d1. by rewrite maskLoop_length.
  - apply Forall_lookup. intros i v Hi. rewrite lookup_rd in Hi.
    assert (is_Some (rd (data img) (Z.of_nat i))) as [v0 Hv0].
    { apply rd_is_Some. unfold d1 in Hi.
      erewrite <- maskLoop_length. apply rd_is_Some. by eexists. }
    rewrite Forall_lookup in Hbytes.
    pose proof (Hbytes i v0 ltac:(by rewrite lookup_rd)) as Hr.
    destruct (Hbyte _ _ Hv0) as [E | [E _]]; rewrite Hi in E; injection E as ->;
      [done | lia].
Qed.

Lemma removeColor_wellFormed_witness :
  wellFormed (removeColor greys 0 0) /\
  forall j v, rd (data greys) j = Some v ->
    rd (data (removeColor greys 0 0)) j = Some v \/
    (rd (data (removeColor greys 0 0)) j = Some 0 /\ 0 < v /\ j mod 4 = 3).
Proof.
  apply (removeColor_wellFormed greys 0 0).
  split; [reflexivity | repeat constructor; lia].
Defined.

Lemma removeColor_eq img startX startY :
  removeColor img startX startY =
    if strictEq (rd (data img) (byteIndex img (startX, startY) + 3)) (Some 0)
    then img
    else mkImageData (width img) (height img)
           (maskLoop (rd (data img) (byteIndex img (startX, startY)))
              (rd (data img) (byteIndex img (startX, startY) + 1))
              (rd (data img) (byteIndex img (startX, startY) + 2))
              (data img)).
Proof. reflexivity. Qed.

(** X3.  On a well-formed buffer a second [removeColor] at the same seed changes
    nothing more, wherever the seed is: the first call leaves the pixel it
    read with alpha 0, or had nothing to read. *)
Theorem removeColor_idempotent img startX startY :
  wellFormed img ->
  removeColor (removeColor img startX startY) startX startY
    = removeColor img startX startY.
Proof.
  intros Hwf. pose proof Hwf as [Hlen Hbytes].
  pose proof (byteIndex_mod img (startX, startY)) as Hmod.
  rewrite (removeColor_eq img).
  set (ti := byteIndex img (startX, startY)) in *.
  destruct (rd (data img) (ti + 3)) as [a |] eqn:Ha.
  2:{ (* nothing at the seed's index *)
    assert (rd (data img) ti = None) as Hr.
    { apply rd_None. apply rd_None in Ha. Z.div_mod_to_equations. lia. }
    rewrite Hr. simpl. rewrite maskLoop_undefined.
    replace (mkImageData (width img) (height img) (data img)) with img
      by (by destruct img).
    rewrite removeColor_eq. fold ti. rewrite Ha, Hr. simpl.
    rewrite maskLoop_undefined. by destruct img. }
  simpl. destruct (Z.eqb_spec a 0) as [-> | Hne].
  { rewrite removeColor_eq. fold ti. by rewrite Ha. }
  (* a colour with nonzero alpha: the seed's pixel is masked itself *)
  assert (0 <= ti + 3 < Z.of_nat (length (data img))) as Hin
    by (apply rd_is_Some; by eexists).
  assert (0 <= ti) as Hti by (Z.div_mod_to_equations; lia).
  destruct (proj2 (rd_is_Some (data img) ti) ltac:(lia)) as [r1 Hr].
  destruct (proj2 (rd_is_Some (data img) (ti + 1)) ltac:(lia)) as [g1 Hg].
  destruct (proj2 (rd_is_Some (data img) (ti + 2)) ltac:(lia)) as [b1 Hb].
  rewrite Hr, Hg, Hb.
  pose proof (wellFormed_byte img _ _ Hwf Ha) as Harange.
  set (d1 := maskLoop (Some r1) (Some g1) (Some b1) (data img)).
  rewrite removeColor_eq. cbn [data width height].
  change (byteIndex (mkImageData (width img) (height img) d1) (startX, startY))
    with ti.
  assert (rd d1 (ti + 3) = Some 0) as ->.
  { unfold d1. rewrite rd_maskLoop. replace (ti + 3 - 3) with ti by lia.
    rewrite Hmod. unfold maskTest. rewrite Hr, Hg, Hb, Ha. simpl.
    rewrite !Z.sub_diag. simpl.
    by rewrite (proj2 (Z.ltb_lt 0 a)) by lia. }
  done.
Qed.

Lemma removeColor_idempotent_witness :
  removeColor (removeColor greys 0 0) 0 0 = removeColor greys 0 0.
Proof.
  apply (removeColor_idempotent greys 0 0).
  split; [reflexivity | repeat constructor; lia].
Defined.

(** X4.  The magic wand after the fill bucket, at the same point: every pixel of
    the region the fill painted ends with the fill colour's RGB and alpha 0. *)
Theorem floodFill_then_removeColor img c startX startY fuel :
  wellFormed img ->
  rgb8 c ->
  inBounds img (startX, startY) ->
  (length (data img) + 1 <= fuel)%nat ->
  exists img1,
    floodFill fuel img c startX startY = Some img1 /\
    forall p, region img (startX, startY) p ->
      colorAt (removeColor img1 startX startY) p
        = (Some (r c), Some (g c), Some (b c), Some 0).
Proof.
  intros [Hlen _] Hc Hseed Hfuel.
  destruct (floodFill_result img c startX startY fuel Hlen Hc Hseed Hfuel)
    as (d' & Hret & _ & _ & Hpix & _ & _).
  exists (mkImageData (width img) (height img) d'). split; [done |].
  assert (forall p, region img (startX, startY) p ->
            pixel d' (byteIndex img p) = newColor c) as Hfill.
  { intros p Hreg. apply (Hpix p (region_inBounds _ _ _ Hreg)). exact Hreg. }
  pose proof (Hfill _ (region_seed img _ Hseed)) as Hs.
  injection Hs as Hr Hg Hb Ha. unfold byteIndex in Hr, Hg, Hb, Ha.
  simpl in Hr, Hg, Hb, Ha.
  intros p Hreg. unfold removeColor. cbn [data width height].
  rewrite Hr, Hg, Hb, Ha. simpl.
  change (colorAt ?i p) with (pixel (data i) (byteIndex i p)).
  cbn [data width height]. change (byteIndex _ p) with (byteIndex img p).
  rewrite pixel_maskLoop by apply byteIndex_mod.
  specialize (Hfill p Hreg). injection Hfill as Hr1 Hg1 Hb1 Ha1.
  unfold maskTest. rewrite Hr1, Hg1, Hb1, Ha1. simpl.
  rewrite !Z.sub_diag. done.
Qed.

Lemma floodFill_then_removeColor_witness :
  exists img1,
    floodFill 17 checker (mkRgb 7 7 7) 0 0 = Some img1 /\
    forall p, region checker (0, 0) p ->
      colorAt (removeColor img1 0 0) p = (Some 7, Some 7, Some 7, Some 0).
Proof.
  apply (floodFill_then_removeColor checker (mkRgb 7 7 7) 0 0 17).
  - split; [reflexivity | repeat constructor; lia].
  - unfold rgb8; simpl; lia.
  - unfold inBounds; simpl; lia.
  - simpl; lia.
Defined.

(** ** The region does not depend on where in it the seed is *)

Lemma adjacent_sym p q : adjacent p q -> adjacent q p.
Proof.
  destruct p as [x y]. unfold adjacent. simpl.
  intros [-> | [-> | [-> | ->]]]; simpl;
    [right; left | left | do 3 right | do 2 right; left]; f_equal; lia.
Qed.

Lemma region_trans img s p q :
  region img s p -> region img p q -> region img s q.
Proof.
  intros Hsp. induction 1 as [Hp | q' q Hreg IH Ha Hq Hcol]; [done |].
  apply (region_step img s q' q); try done.
  by rewrite Hcol, (region_color _ _ _ Hsp).
Qed.

Lemma region_sym img s p : region img s p -> region img p s.
Proof.
  induction 1 as [Hs | p q Hreg IH Ha Hq Hcol]; [by apply region_seed |].
  apply (region_trans img q p s); [| done].
  apply (region_step img q q p); [by apply region_seed | by apply adjacent_sym | |].
  - by eapply region_inBounds.
  - by rewrite (region_color _ _ _ Hreg).
Qed.

(** X5.  A click anywhere in the region gives the buffer that a click on the
    seed gives. *)
Theorem floodFill_same_region img c startX startY x2 y2 fuel :
  wellFormed img ->
  rgb8 c ->
  inBounds img (startX, startY) ->
  (length (data img) + 1 <= fuel)%nat ->
  region img (startX, startY) (x2, y2) ->
  floodFill fuel img c x2 y2 = floodFill fuel img c startX startY.
Proof.
  intros [Hlen _] Hc Hseed Hfuel Hreg.
  pose proof (region_inBounds _ _ _ Hreg) as Hseed2.
  destruct (floodFill_result img c startX startY fuel Hlen Hc Hseed Hfuel)
    as (d1 & Hret1 & Hlen1 & _ & Hpix1 & _ & _).
  destruct (floodFill_result img c x2 y2 fuel Hlen Hc Hseed2 Hfuel)
    as (d2 & Hret2 & Hlen2 & _ & Hpix2 & _ & _).
  rewrite Hret1, Hret2. do 2 f_equal.
  apply (buffer_ext img).
  - unfold inBounds in Hseed; simpl in Hseed; lia.
  - by rewrite Hlen2.
  - by rewrite Hlen1, Hlen2.
  - intros p Hp.
    destruct (Hpix1 p Hp) as [[E1 | [R1 E1]] F1],
             (Hpix2 p Hp) as [[E2 | [R2 E2]] F2].
    + unfold pixelAt in *. congruence.
    + rewrite E2. symmetry. apply F1. by apply (region_trans img _ (x2, y2)).
    + rewrite E1. apply F2.
      apply (region_trans img _ (startX, startY)); [by apply region_sym | done].
    + unfold pixelAt in *. congruence.
Qed.

Lemma floodFill_same_region_witness :
  floodFill 9 twins (mkRgb 9 9 9) 1 0 = floodFill 9 twins (mkRgb 9 9 9) 0 0.
Proof.
  apply (floodFill_same_region twins (mkRgb 9 9 9) 0 0 1 0 9).
  - split; [reflexivity | repeat constructor; lia].
  - unfold rgb8; simpl; lia.
  - unfold inBounds; simpl; lia.
  - simpl; lia.
  - apply (region_step twins (0, 0) (0, 0) (1, 0)).
    + apply region_seed. unfold inBounds; simpl; lia.
    + left. reflexivity.
    + unfold inBounds; simpl; lia.
    + reflexivity.
Defined.

(** * More on the sprite sheet *)

Lemma assemble_Some cols spacing h v imgs canvas :
  Sheet.assemble cols spacing h v imgs = Some canvas ->
  imgs <> [] /\
  Sheet.drawn canvas =
    imap (Sheet.place cols spacing h v (cellWidth imgs) (cellHeight imgs)) imgs /\
  Sheet.canvasWidth canvas =
    (if (length imgs =? 1)%nat then cellWidth imgs
     else cols * cellWidth imgs + (cols - 1) * spacing) /\
  Sheet.canvasHeight canvas =
    (if (length imgs =? 1)%nat then cellHeight imgs
     else Sheet.ceilDiv (Z.of_nat (length imgs)) cols * cellHeight imgs
          + (Sheet.ceilDiv (Z.of_nat (length imgs)) cols - 1) * spacing).
Proof.
  destruct imgs as [| i0 others]; [done |]. intros Hasm.
  split; [done |]. revert Hasm. unfold Sheet.assemble, cellWidth, cellHeight.
  destruct (length (i0 :: others) =? 1)%nat; intros [= <-]; done.
Qed.

Lemma cell_bounds imgs img :
  img ∈ imgs ->
  Sheet.width img <= cellWidth imgs /\ Sheet.height img <= cellHeight imgs.
Proof.
  destruct imgs as [| i0 others]; [by intros ?%elem_of_nil |].
  intros Hin. unfold cellWidth, cellHeight. split.
  - apply (maxOf_upper (Sheet.width i0) (Sheet.width <$> others)).
    change (Sheet.width img ∈ Sheet.width <$> i0 :: others).
    by apply list_elem_of_fmap_2.
  - apply (maxOf_upper (Sheet.height i0) (Sheet.height <$> others)).
    change (Sheet.height img ∈ Sheet.height <$> i0 :: others).
    by apply list_elem_of_fmap_2.
Qed.

Lemma xOffsetOf_bounds h cellW img :
  Sheet.width img <= cellW ->
  0 <= Sheet.xOffsetOf h cellW img <= cellW - Sheet.width img.
Proof.
  intros Hw. unfold Sheet.xOffsetOf.
  destruct h; [lia | Z.div_mod_to_equations; lia | lia].
Qed.

Lemma yOffsetOf_bounds v cellH img :
  Sheet.height img <= cellH ->
  0 <= Sheet.yOffsetOf v cellH img <= cellH - Sheet.height img.
Proof.
  intros Hh. unfold Sheet.yOffsetOf.
  destruct v; [lia | Z.div_mod_to_equations; lia | lia].
Qed.

(** Image [i] is drawn inside cell [(i mod cols, i div cols)] of the grid. *)
Lemma assemble_cell cols spacing h v imgs canvas i img dx dy :
  1 <= cols ->
  Sheet.assemble cols spacing h v imgs = Some canvas ->
  Sheet.drawn canvas !! i = Some (img, dx, dy) ->
  imgs !! i = Some img /\
  (Z.of_nat i mod cols) * (cellWidth imgs + spacing) <= dx /\
  dx + Sheet.width img
    <= (Z.of_nat i mod cols) * (cellWidth imgs + spacing) + cellWidth imgs /\
  (Z.of_nat i / cols) * (cellHeight imgs + spacing) <= dy /\
  dy + Sheet.height img
    <= (Z.of_nat i / cols) * (cellHeight imgs + spacing) + cellHeight imgs.
Proof.
  intros Hcols Hasm Hi.
  destruct (assemble_Some _ _ _ _ _ _ Hasm) as (_ & Hd & _ & _).
  rewrite Hd, list_lookup_imap in Hi.
  destruct (imgs !! i) as [img' |] eqn:Hlook; [| done].
  simpl in Hi. unfold Sheet.place in Hi. injection Hi as -> <- <-.
  split; [done |].
  destruct (cell_bounds imgs img (list_elem_of_lookup_2 _ _ _ Hlook)) as [Hw Hh].
  pose proof (xOffsetOf_bounds h (cellWidth imgs) img Hw).
  pose proof (yOffsetOf_bounds v (cellHeight imgs) img Hh).
  rewrite Z.rem_mod_nonneg by lia. lia.
Qed.

(** X8.  With at least one column, no negative spacing and images of
    non-negative size, every image is drawn wholly inside the canvas. *)
Theorem assemble_inside_canvas cols spacing h v imgs canvas i img dx dy :
  1 <= cols ->
  0 <= spacing ->
  Forall (fun im => 0 <= Sheet.width im /\ 0 <= Sheet.height im) imgs ->
  Sheet.assemble cols spacing h v imgs = Some canvas ->
  Sheet.drawn canvas !! i = Some (img, dx, dy) ->
  0 <= dx /\ dx + Sheet.width img <= Sheet.canvasWidth canvas /\
  0 <= dy /\ dy + Sheet.height img <= Sheet.canvasHeight canvas.
Proof.
  intros Hcols Hsp Hsize Hasm Hi.
  destruct (assemble_cell _ _ _ _ _ _ _ _ _ _ Hcols Hasm Hi)
    as (Hlook & Hx1 & Hx2 & Hy1 & Hy2).
  destruct (assemble_Some _ _ _ _ _ _ Hasm) as (_ & _ & HW & HH).
  rewrite Forall_forall in Hsize.
  pose proof (list_elem_of_lookup_2 _ _ _ Hlook) as Hin.
  destruct (Hsize _ Hin) as [Hw0 Hh0].
  destruct (cell_bounds _ _ Hin) as [Hw Hh].
  pose proof (lookup_lt_Some _ _ _ Hlook) as Hlt.
  pose proof (Z.mod_pos_bound (Z.of_nat i) cols ltac:(lia)) as Hcol.
  assert (0 <= Z.of_nat i / cols) as Hrow0 by (apply Z.div_pos; lia).
  rewrite HW, HH.
  destruct (Nat.eqb_spec (length imgs) 1) as [H1 | H1].
  - assert (i = 0%nat) as -> by lia.
    rewrite Z.mod_0_l in * by lia. rewrite Z.div_0_l in * by lia. lia.
  - pose proof (ceilDiv_spec (Z.of_nat (length imgs)) cols ltac:(lia)) as Hceil.
    assert (Z.of_nat i / cols < Sheet.ceilDiv (Z.of_nat (length imgs)) cols)
      as Hrow by (apply Z.div_lt_upper_bound; lia).
    assert (0 <= (Z.of_nat i mod cols) * (cellWidth imgs + spacing)) by nia.
    assert (0 <= (Z.of_nat i / cols) * (cellHeight imgs + spacing)) by nia.
    assert ((Z.of_nat i mod cols) * (cellWidth imgs + spacing)
            <= (cols - 1) * (cellWidth imgs + spacing)) by nia.
    assert ((Z.of_nat i / cols) * (cellHeight imgs + spacing)
            <= (Sheet.ceilDiv (Z.of_nat (length imgs)) cols - 1)
               * (cellHeight imgs + spacing)) by nia.
    lia.
Qed.

Lemma assemble_inside_canvas_witness :
  0 <= 20 /\ 20 + Sheet.width (Sheet.mkImage 12 16) <= 52 /\
  0 <= 18 /\ 18 + Sheet.height (Sheet.mkImage 12 16) <= 34.
Proof.
  apply (assemble_inside_canvas 3 2 Sheet.H.center Sheet.V.bottom fiveSprites
           (Sheet.mkCanvas 52 34
              [(Sheet.mkImage 16 16, 0, 0); (Sheet.mkImage 8 8, 22, 8);
               (Sheet.mkImage 16 10, 36, 6); (Sheet.mkImage 1 1, 7, 33);
               (Sheet.mkImage 12 16, 20, 18)])
           4 (Sheet.mkImage 12 16) 20 18).
  - lia.
  - lia.
  - repeat constructor; simpl; lia.
  - reflexivity.
  - reflexivity.
Defined.

(** X9.  Under the same conditions no two images overlap: two different images
    of the sheet are apart across or apart down. *)
Theorem assemble_no_overlap cols spacing h v imgs canvas i j a ax ay b bx by' :
  1 <= cols ->
  0 <= spacing ->
  Forall (fun im => 0 <= Sheet.width im /\ 0 <= Sheet.height im) imgs ->
  Sheet.assemble cols spacing h v imgs = Some canvas ->
  i <> j ->
  Sheet.drawn canvas !! i = Some (a, ax, ay) ->
  Sheet.drawn canvas !! j = Some (b, bx, by') ->
  ax + Sheet.width a <= bx \/ bx + Sheet.width b <= ax \/
  ay + Sheet.height a <= by' \/ by' + Sheet.height b <= ay.
Proof.
  intros Hcols Hsp Hsize Hasm Hij Hi Hj.
  destruct (assemble_cell _ _ _ _ _ _ _ _ _ _ Hcols Hasm Hi)
    as (Hlooki & Hix1 & Hix2 & Hiy1 & Hiy2).
  destruct (assemble_cell _ _ _ _ _ _ _ _ _ _ Hcols Hasm Hj)
    as (Hlookj & Hjx1 & Hjx2 & Hjy1 & Hjy2).
  rewrite Forall_forall in Hsize.
  pose proof (list_elem_of_lookup_2 _ _ _ Hlooki) as Hin.
  destruct (Hsize _ Hin) as [Hw0 Hh0].
  destruct (cell_bounds _ _ Hin) as [Hw Hh].
  set (W := cellWidth imgs + spacing) in *.
  set (H := cellHeight imgs + spacing) in *.
  assert (0 <= W /\ 0 <= H) as [HW HH] by (unfold W, H; lia).
  pose proof (Z.div_mod (Z.of_nat i) cols ltac:(lia)) as Hdi.
  pose proof (Z.div_mod (Z.of_nat j) cols ltac:(lia)) as Hdj.
  set (ci := Z.of_nat i mod cols) in *. set (ri := Z.of_nat i / cols) in *.
  set (cj := Z.of_nat j mod cols) in *. set (rj := Z.of_nat j / cols) in *.
  assert (ci <> cj \/ ri <> rj) as Hcell.
  { destruct (decide (ci = cj)) as [Hc |]; [| by left].
    right. intros Hr. apply Hij. apply Nat2Z.inj. rewrite Hdi, Hdj. congruence. }
  assert (ci < cj \/ cj < ci \/ ri < rj \/ rj < ri) as [Hlt | [Hlt | [Hlt | Hlt]]]
    by lia.
  - left. assert ((ci + 1) * W <= cj * W) by nia. unfold W in *. lia.
  - right; left. assert ((cj + 1) * W <= ci * W) by nia. unfold W in *. lia.
  - do 2 right; left. assert ((ri + 1) * H <= rj * H) by nia. unfold H in *. lia.
  - do 3 right. assert ((rj + 1) * H <= ri * H) by nia. unfold H in *. lia.
Qed.

Lemma assemble_no_overlap_witness :
  22 + Sheet.width (Sheet.mkImage 8 8) <= 20 \/
  20 + Sheet.width (Sheet.mkImage 12 16) <= 22 \/
  8 + Sheet.height (Sheet.mkImage 8 8) <= 18 \/
  18 + Sheet.height (Sheet.mkImage 12 16) <= 8.
Proof.
  apply (assemble_no_overlap 3 2 Sheet.H.center Sheet.V.bottom fiveSprites
           (Sheet.mkCanvas 52 34
              [(Sheet.mkImage 16 16, 0, 0); (Sheet.mkImage 8 8, 22, 8);
               (Sheet.mkImage 16 10, 36, 6); (Sheet.mkImage 1 1, 7, 33);
               (Sheet.mkImage 12 16, 20, 18)])
           1 4 (Sheet.mkImage 8 8) 22 8 (Sheet.mkImage 12 16) 20 18).
  - lia.
  - lia.
  - repeat constructor; simpl; lia.
  - reflexivity.
  - lia.
  - reflexivity.
  - reflexivity.
Defined.

Lemma loadAll_Some sheetImages loadedImages :
  Sheet.loadAll sheetImages = Some loadedImages ->
  Some <$> loadedImages = sheetImages.
Proof.
  revert loadedImages.
  induction sheetImages as [| src srcs IH]; intros loadedImages; simpl.
  - by intros [= <-].
  - destruct src as [img |]; [| done].
    destruct (Sheet.loadAll srcs) as [imgs |]; [| done].
    intros [= <-]. rewrite fmap_cons. f_equal. by apply IH.
Qed.

Lemma fst_place cols spacing h v cellW cellH imgs :
  (fun t : Sheet.Image * Z * Z => t.1.1) <$>
    imap (Sheet.place cols spacing h v cellW cellH) imgs = imgs.
Proof.
  apply list_eq. intros i. rewrite list_lookup_fmap, list_lookup_imap.
  by destruct (imgs !! i).
Qed.

(** X10.  What [handleAssembleSheet] leaves for a sheet that is not empty: the
    busy flag is off; when every image loads, the generated image is a
    canvas on which each image of the sheet is drawn once, in the order of
    the sheet, and the error is the one that was there before; when an
    image fails to load, the error is set and the generated image is the
    one that was there before. *)
Theorem handleAssembleSheet_outcome cols spacing h v sheetImages st :
  sheetImages <> [] ->
  Sheet.isGenerating
    (Sheet.handleAssembleSheet cols spacing h v sheetImages st) = false /\
  (forall loadedImages,
     Sheet.loadAll sheetImages = Some loadedImages ->
     Sheet.error (Sheet.handleAssembleSheet cols spacing h v sheetImages st)
       = Sheet.error st /\
     exists canvas,
       Sheet.generatedImage
         (Sheet.handleAssembleSheet cols spacing h v sheetImages st)
         = Some canvas /\
       (fun t : Sheet.Image * Z * Z => t.1.1) <$> Sheet.drawn canvas
         = loadedImages /\
       Some <$> loadedImages = sheetImages) /\
  (Sheet.loadAll sheetImages = None ->
   Sheet.error (Sheet.handleAssembleSheet cols spacing h v sheetImages st)
     <> None /\
   Sheet.generatedImage
     (Sheet.handleAssembleSheet cols spacing h v sheetImages st)
     = Sheet.generatedImage st).
Proof.
  intros Hne. unfold Sheet.handleAssembleSheet.
  destruct sheetImages as [| src srcs]; [done |]. cbn [length Nat.eqb].
  destruct (Sheet.loadAll (src :: srcs)) as [loadedImages |] eqn:Hload.
  2:{ split; [done |]. split; [done |]. intros _. done. }
  pose proof (loadAll_Some _ _ Hload) as Hsame.
  destruct (Sheet.assemble cols spacing h v loadedImages) as [canvas |] eqn:Hasm.
  2:{ destruct loadedImages; [done |]. unfold Sheet.assemble in Hasm.
      by destruct (length _ =? 1)%nat. }
  split; [done |]. split; [| done].
  intros ? [= <-]. split; [done |]. exists canvas. split; [done |].
  split; [| done].
  destruct (assemble_Some _ _ _ _ _ _ Hasm) as (_ & -> & _).
  apply fst_place.
Qed.

Lemma handleAssembleSheet_outcome_witness :
  Sheet.isGenerating
    (Sheet.handleAssembleSheet 4 0 Sheet.H.center Sheet.V.bottom
       [Some (Sheet.mkImage 8 8); None] idle) = false /\
  (forall loadedImages,
     Sheet.loadAll [Some (Sheet.mkImage 8 8); None] = Some loadedImages ->
     Sheet.error
       (Sheet.handleAssembleSheet 4 0 Sheet.H.center Sheet.V.bottom
          [Some (Sheet.mkImage 8 8); None] idle)
       = Sheet.error idle /\
     exists canvas,
       Sheet.generatedImage
         (Sheet.handleAssembleSheet 4 0 Sheet.H.center Sheet.V.bottom
            [Some (Sheet.mkImage 8 8); None] idle)
         = Some canvas /\
       (fun t : Sheet.Image * Z * Z => t.1.1) <$> Sheet.drawn canvas
         = loadedImages /\
       Some <$> loadedImages = [Some (Sheet.mkImage 8 8); None]) /\
  (Sheet.loadAll [Some (Sheet.mkImage 8 8); None] = None ->
   Sheet.error
     (Sheet.handleAssembleSheet 4 0 Sheet.H.center Sheet.V.bottom
        [Some (Sheet.mkImage 8 8); None] idle)
     <> None /\
   Sheet.generatedImage
     (Sheet.handleAssembleSheet 4 0 Sheet.H.center Sheet.V.bottom
        [Some (Sheet.mkImage 8 8); None] idle)
     = Sheet.generatedImage idle).
Proof.
  apply (handleAssembleSheet_outcome 4 0 Sheet.H.center Sheet.V.bottom
           [Some (Sheet.mkImage 8 8); None] idle).
  discriminate.
Defined.

(** ** The list of sheet images *)

Lemma removeIndex_spec index i prev :
  removeIndex index i prev =
    if decide (Z.of_nat i <= index < Z.of_nat (i + length prev))
    then take (Z.to_nat index - i) prev ++ drop (S (Z.to_nat index - i)) prev
    else prev.
Proof.
  revert i. induction prev as [| src srcs IH]; intros i; cbn [removeIndex].
  - case_decide; [simpl in *; lia | done].
  - rewrite IH. destruct (Z.eqb_spec (Z.of_nat i) index) as [<- | Hne].
    + rewrite Nat2Z.id, Nat.sub_diag.
      rewrite decide_False by lia. rewrite decide_True by (simpl; lia).
      reflexivity.
    + case_decide as H1; case_decide as H2; simpl in *; try lia; [| done].
      replace (Z.to_nat index - i)%nat with (S (Z.to_nat index - S i)) by lia.
      done.
Qed.

(** X11.  [handleRemoveFromSheet] takes out the image at [index] and keeps the
    others in their order; an index that is negative or past the end takes
    out nothing. *)
Theorem handleRemoveFromSheet_spec index prev :
  (0 <= index < Z.of_nat (length prev) ->
   handleRemoveFromSheet index prev
     = take (Z.to_nat index) prev ++ drop (S (Z.to_nat index)) prev /\
   S (length (handleRemoveFromSheet index prev)) = length prev) /\
  (~ 0 <= index < Z.of_nat (length prev) ->
   handleRemoveFromSheet index prev = prev).
Proof.
  unfold handleRemoveFromSheet. rewrite removeIndex_spec.
  rewrite Nat.sub_0_r. simpl. split; intros Hi.
  - rewrite decide_True by lia. split; [done |].
    rewrite length_app, length_take, length_drop. lia.
  - by rewrite decide_False by lia.
Qed.

(** X12.  Adding the current image and then removing the last entry gives the
    list back. *)
Theorem add_then_remove src prev :
  src <> EmptyString ->
  handleRemoveFromSheet (Z.of_nat (length prev))
    (handleAddCurrentToSheet (Some src) prev) = prev /\
  handleAddCurrentToSheet None prev = prev /\
  handleAddCurrentToSheet (Some EmptyString) prev = prev.
Proof.
  intros Hsrc. split; [| done].
  unfold handleAddCurrentToSheet, handleRemoveFromSheet.
  rewrite (proj2 (String.eqb_neq src "") Hsrc).
  rewrite removeIndex_spec, Nat.sub_0_r, Nat2Z.id.
  rewrite decide_True by (rewrite length_app; simpl; lia).
  rewrite take_app_length. rewrite drop_ge by (rewrite length_app; simpl; lia).
  by rewrite app_nil_r.
Qed.

Lemma add_then_remove_witness :
  handleRemoveFromSheet (Z.of_nat (length ["a"%string]))
    (handleAddCurrentToSheet (Some "b"%string) ["a"%string]) = ["a"%string] /\
  handleAddCurrentToSheet None ["a"%string] = ["a"%string] /\
  handleAddCurrentToSheet (Some EmptyString) ["a"%string] = ["a"%string].
Proof.
  apply (add_then_remove "b" ["a"%string]). discriminate.
Defined.

(** * The zoom of the editor *)

Lemma clickZoom_bounds z button :
  1 <= z <= 20 -> 1 <= clickZoom z button <= 20.
Proof. destruct button; unfold clickZoom, zoomOut, zoomIn; lia. Qed.

Lemma foldl_clickZoom_bounds clicks z :
  1 <= z <= 20 -> 1 <= foldl clickZoom z clicks <= 20.
Proof.
  revert z. induction clicks as [| button clicks IH]; intros z Hz; simpl;
    [done |].
  apply IH. by apply clickZoom_bounds.
Qed.

(** X13.  Whatever buttons are clicked, the zoom stays between 1 and 20, and a
    click changes it by one step at most. *)
Theorem zoom_bounds clicks button :
  1 <= zoomAfter clicks <= 20 /\
  Z.abs (zoomAfter (clicks ++ [button]) - zoomAfter clicks) <= 1.
Proof.
  assert (1 <= zoomAfter clicks <= 20) as Hz
    by (apply foldl_clickZoom_bounds; lia).
  split; [done |]. unfold zoomAfter in *. rewrite foldl_app.
  generalize dependent (foldl clickZoom 1 clicks). intros z Hz.
  cbn [foldl]. destruct button; unfold clickZoom, zoomOut, zoomIn; lia.
Qed.

(** * The mouse handlers of the editor *)

(** X14.  Moving over the canvas, releasing the button, leaving the canvas and
    changing the tool or the colour never touch the canvas while no stroke
    is open: without a mouse-down nothing is painted. *)
Theorem hover_paints_nothing s events :
  Editor.isDrawing s = false ->
  Forall (fun e => forall x y, e <> Editor.MouseDown x y) events ->
  (Editor.run s events).2 = [] /\
  Editor.isDrawing (Editor.run s events).1 = false.
Proof.
  revert s. induction events as [| e events IH]; intros s Hs Hall; [done |].
  apply Forall_cons in Hall as [He Hall]. cbn [Editor.run].
  assert (exists s1, Editor.handle s e = (s1, []) /\ Editor.isDrawing s1 = false)
    as (s1 & -> & Hs1).
  { destruct e as [x y | x y | | | t | c]; simpl.
    - by destruct (He x y).
    - exists s. unfold Editor.draw. by rewrite Hs.
    - by eexists.
    - by eexists.
    - by eexists.
    - by eexists. }
  specialize (IH s1 Hs1 Hall).
  destruct (Editor.run s1 events) as [s2 effects2]. simpl in *.
  by destruct IH as [-> ->].
Qed.

Lemma hover_paints_nothing_witness :
  (Editor.run (Editor.mkSnapshot Editor.pen (mkRgb 1 2 3) false)
     [Editor.MouseMove 3 4; Editor.SetTool Editor.eraser;
      Editor.MouseMove 5 6; Editor.MouseLeave]).2 = [] /\
  Editor.isDrawing
    (Editor.run (Editor.mkSnapshot Editor.pen (mkRgb 1 2 3) false)
       [Editor.MouseMove 3 4; Editor.SetTool Editor.eraser;
        Editor.MouseMove 5 6; Editor.MouseLeave]).1 = false.
Proof.
  apply (hover_paints_nothing (Editor.mkSnapshot Editor.pen (mkRgb 1 2 3) false)
           [Editor.MouseMove 3 4; Editor.SetTool Editor.eraser;
            Editor.MouseMove 5 6; Editor.MouseLeave]).
  - reflexivity.
  - repeat constructor; discriminate.
Defined.

(** X15.  With the pen or the eraser, on an editor with no stroke open, pressing
    and releasing the button without a move paints nothing: [draw] still
    sees the [isDrawing] of the render in which the button went down.  A
    move between the two paints the pixel under the move, and only that
    one. *)
Theorem click_paints_nothing s x y x2 y2 :
  Editor.isDrawing s = false ->
  Editor.tool s = Editor.pen \/ Editor.tool s = Editor.eraser ->
  Editor.run s [Editor.MouseDown x y; Editor.MouseUp] = (s, []) /\
  Editor.run s [Editor.MouseDown x y; Editor.MouseMove x2 y2; Editor.MouseUp]
    = (s, [match Editor.tool s with
           | Editor.pen => Editor.FillRect (Editor.color s) x2 y2 1 1
           | _ => Editor.ClearRect x2 y2 1 1
           end]).
Proof.
  destruct s as [t c d]. simpl. intros -> [-> | ->]; done.
Qed.

Lemma click_paints_nothing_witness :
  Editor.run (Editor.mkSnapshot Editor.pen (mkRgb 1 2 3) false)
    [Editor.MouseDown 3 4; Editor.MouseUp]
    = (Editor.mkSnapshot Editor.pen (mkRgb 1 2 3) false, []) /\
  Editor.run (Editor.mkSnapshot Editor.pen (mkRgb 1 2 3) false)
    [Editor.MouseDown 3 4; Editor.MouseMove 5 6; Editor.MouseUp]
    = (Editor.mkSnapshot Editor.pen (mkRgb 1 2 3) false,
       [Editor.FillRect (mkRgb 1 2 3) 5 6 1 1]).
Proof.
  apply (click_paints_nothing
           (Editor.mkSnapshot Editor.pen (mkRgb 1 2 3) false) 3 4 5 6).
  - reflexivity.
  - by left.
Defined.

(** * The image service *)

Lemma firstInline_app before part after d :
  Forall (fun p => Gemini.inlineData p = None) before ->
  Gemini.inlineData part = Some d ->
  Gemini.firstInline (before ++ part :: after) = Some d.
Proof.
  intros Hbefore Hpart. induction Hbefore as [| p ps Hp _ IH]; simpl.
  - by rewrite Hpart.
  - by rewrite Hp.
Qed.

Lemma firstInline_None ps :
  Forall (fun p => Gemini.inlineData p = None) ps <->
  Gemini.firstInline ps = None.
Proof.
  induction ps as [| p ps IH]; simpl; [done |].
  rewrite Forall_cons. destruct (Gemini.inlineData p); [| tauto].
  split; [intros [? _] |]; done.
Qed.

Lemma firstInline_Some ps d :
  Gemini.firstInline ps = Some d ->
  exists before part after,
    ps = before ++ part :: after /\
    Forall (fun p => Gemini.inlineData p = None) before /\
    Gemini.inlineData part = Some d.
Proof.
  induction ps as [| p ps IH]; simpl; [done |].
  destruct (Gemini.inlineData p) as [d0 |] eqn:Hp.
  - intros [= ->]. by exists [], p, ps.
  - intros Hd. destruct (IH Hd) as (before & part & after & -> & Hb & Hpart).
    exists (p :: before), part, after. split; [done |]. split; [| done].
    by apply Forall_cons.
Qed.

(** X16.  [extractImageOrThrow] returns exactly when a part of the first
    candidate carries inline data, and then it returns the PNG data URL of
    the first such part, whatever text the parts before it carry. *)
Theorem extractImageOrThrow_image response defaultError :
  (forall before part after d,
     Gemini.partsOf response = before ++ part :: after ->
     Forall (fun p => Gemini.inlineData p = None) before ->
     Gemini.inlineData part = Some d ->
     Gemini.extractImageOrThrow response defaultError
       = Return (String.append Gemini.pngHeader d)) /\
  (forall url,
     Gemini.extractImageOrThrow response defaultError = Return url ->
     exists before part after d,
       Gemini.partsOf response = before ++ part :: after /\
       Forall (fun p => Gemini.inlineData p = None) before /\
       Gemini.inlineData part = Some d /\
       url = String.append Gemini.pngHeader d).
Proof.
  unfold Gemini.extractImageOrThrow. split.
  - intros before part after d -> Hbefore Hpart.
    by rewrite (firstInline_app _ _ _ _ Hbefore Hpart).
  - intros url.
    destruct (Gemini.firstInline (Gemini.partsOf response)) as [d |] eqn:Hd.
    + intros [= <-].
      destruct (firstInline_Some _ _ Hd) as (before & part & after & ? & ? & ?).
      by exists before, part, after, d.
    + destruct (Gemini.findText _) as [p |]; [| done].
      destruct (Gemini.text p) as [t |]; [| done].
      by destruct (String.eqb t "").
Qed.

Lemma findText_Some ps p :
  Gemini.findText ps = Some p ->
  exists before after t,
    ps = before ++ p :: after /\
    Forall (fun q => truthy (Gemini.text q) = false) before /\
    Gemini.text p = Some t /\ t <> EmptyString.
Proof.
  induction ps as [| q ps IH]; simpl; [done |].
  destruct (truthy (Gemini.text q)) eqn:Hq.
  - intros [= ->]. unfold truthy in Hq.
    destruct (Gemini.text p) as [t |] eqn:Ht; [| done].
    exists [], ps, t. split; [done |]. split; [done |]. split; [done |].
    intros ->. done.
  - intros Hp. destruct (IH Hp) as (before & after & t & -> & Hb & Ht).
    exists (q :: before), after, t. split; [done |]. split; [| done].
    by apply Forall_cons.
Qed.

Lemma findText_None ps :
  Gemini.findText ps = None ->
  Forall (fun q => truthy (Gemini.text q) = false) ps.
Proof.
  induction ps as [| q ps IH]; simpl; [done |].
  destruct (truthy (Gemini.text q)) eqn:Hq; [done |].
  intros Hp. apply Forall_cons. auto.
Qed.

(** X17.  When no part carries inline data, [extractImageOrThrow] throws: the
    message is the first non-empty text of the parts, and the default
    message when no part has a non-empty text. *)
Theorem extractImageOrThrow_throws response defaultError :
  Forall (fun p => Gemini.inlineData p = None) (Gemini.partsOf response) ->
  exists msg,
    Gemini.extractImageOrThrow response defaultError = Throw (newError msg) /\
    ((exists before part after,
        Gemini.partsOf response = before ++ part :: after /\
        Forall (fun q => truthy (Gemini.text q) = false) before /\
        Gemini.text part = Some msg /\ msg <> EmptyString) \/
     (Forall (fun q => truthy (Gemini.text q) = false) (Gemini.partsOf response) /\
      msg = defaultError)).
Proof.
  intros Hnone. apply firstInline_None in Hnone.
  unfold Gemini.extractImageOrThrow. rewrite Hnone.
  destruct (Gemini.findText (Gemini.partsOf response)) as [p |] eqn:Hfind.
  - destruct (findText_Some _ _ Hfind) as (before & after & t & Hps & Hb & Ht & Hne).
    exists t. rewrite Ht. rewrite (proj2 (String.eqb_neq t "") Hne).
    split; [done |]. left. by exists before, p, after.
  - exists defaultError. split; [done |]. right.
    split; [by apply findText_None | done].
Qed.

Lemma extractImageOrThrow_throws_witness :
  exists msg,
    Gemini.extractImageOrThrow
      (Gemini.mkResponse
         (Some [Gemini.mkCandidate
                  (Some (Gemini.mkContent
                           (Some [Gemini.mkPart None (Some ""%string);
                                  Gemini.mkPart None (Some "no"%string)])))]))
      "Failed to edit image" = Throw (newError msg) /\
    ((exists before part after,
        [Gemini.mkPart None (Some ""%string);
         Gemini.mkPart None (Some "no"%string)] = before ++ part :: after /\
        Forall (fun q => truthy (Gemini.text q) = false) before /\
        Gemini.text part = Some msg /\ msg <> EmptyString) \/
     (Forall (fun q => truthy (Gemini.text q) = false)
        [Gemini.mkPart None (Some ""%string);
         Gemini.mkPart None (Some "no"%string)] /\
      msg = "Failed to edit image"%string)).
Proof.
  apply (extractImageOrThrow_throws
           (Gemini.mkResponse
              (Some [Gemini.mkCandidate
                       (Some (Gemini.mkContent
                                (Some [Gemini.mkPart None (Some ""%string);
                                       Gemini.mkPart None (Some "no"%string)])))]))
           "Failed to edit image").
  repeat constructor.
Defined.

Lemma substring_all d : String.substring 0 (String.length d) d = d.
Proof. induction d as [| c d IH]; simpl; [done | by rewrite IH]. Qed.

Lemma dropHeader_append header d :
  Gemini.dropHeader header (String.append header d) = Some d.
Proof.
  unfold Gemini.dropHeader.
  assert (String.prefix header (String.append header d) = true) as ->.
  { induction header as [| c header IH]; simpl; [by destruct d |].
    by destruct (Ascii.ascii_dec c c). }
  f_equal. induction header as [| c header IH]; simpl.
  - rewrite Nat.sub_0_r. apply substring_all.
  - exact IH.
Qed.

Lemma dropHeader_Some header str rest :
  Gemini.dropHeader header str = Some rest -> str = String.append header rest.
Proof.
  unfold Gemini.dropHeader. revert str rest.
  induction header as [| c header IH]; intros str rest.
  - cbn [String.length String.append].
    assert (String.prefix "" str = true) as -> by (by destruct str).
    rewrite Nat.sub_0_r, substring_all. by intros [= <-].
  - destruct str as [| c' str]; [done |]. simpl.
    destruct (Ascii.ascii_dec c c') as [<- | _]; [| done].
    destruct (String.prefix header str) eqn:Hp; [| done].
    intros [= <-]. f_equal. apply IH. by rewrite Hp.
Qed.

(** X18.  The header [extractImageOrThrow] puts in front of the data is one of the
    three that [cleanBase64] takes off: cleaning a data URL of type png,
    jpeg or jpg gives the data back, and so does cleaning what
    [extractImageOrThrow] returns.  [cleanBase64] never removes anything
    but one of these three headers, once, from the front. *)
Theorem cleanBase64_roundtrip :
  (forall d,
     Gemini.cleanBase64 (String.append "data:image/png;base64," d) = d /\
     Gemini.cleanBase64 (String.append "data:image/jpeg;base64," d) = d /\
     Gemini.cleanBase64 (String.append "data:image/jpg;base64," d) = d) /\
  (forall response defaultError url,
     Gemini.extractImageOrThrow response defaultError = Return url ->
     Gemini.firstInline (Gemini.partsOf response)
       = Some (Gemini.cleanBase64 url)) /\
  (forall imageBase64,
     exists header,
       header ∈ [""%string; "data:image/png;base64,"%string;
                 "data:image/jpeg;base64,"%string;
                 "data:image/jpg;base64,"%string] /\
       imageBase64 = String.append header (Gemini.cleanBase64 imageBase64)).
Proof.
  assert (forall d,
    Gemini.cleanBase64 (String.append "data:image/png;base64," d) = d) as Hpng.
  { intros d. unfold Gemini.cleanBase64. by rewrite dropHeader_append. }
  split; [| split].
  - intros d. split; [apply Hpng |]. split.
    + unfold Gemini.cleanBase64.
      change (Gemini.dropHeader "data:image/png;base64,"
                (String.append "data:image/jpeg;base64," d)) with (@None string).
      by rewrite dropHeader_append.
    + unfold Gemini.cleanBase64.
      change (Gemini.dropHeader "data:image/png;base64,"
                (String.append "data:image/jpg;base64," d)) with (@None string).
      change (Gemini.dropHeader "data:image/jpeg;base64,"
                (String.append "data:image/jpg;base64," d)) with (@None string).
      by rewrite dropHeader_append.
  - intros response defaultError url. unfold Gemini.extractImageOrThrow.
    destruct (Gemini.firstInline (Gemini.partsOf response)) as [d |].
    + intros [= <-]. f_equal. symmetry. apply Hpng.
    + destruct (Gemini.findText _) as [p |]; [| done].
      destruct (Gemini.text p) as [t |]; [| done].
      by destruct (String.eqb t "").
  - intros imageBase64. unfold Gemini.cleanBase64.
    destruct (Gemini.dropHeader "data:image/png;base64," imageBase64)
      as [rest |] eqn:H1.
    { exists "data:image/png;base64,"%string. split; [rewrite !elem_of_cons; naive_solver |].
      by apply dropHeader_Some. }
    destruct (Gemini.dropHeader "data:image/jpeg;base64," imageBase64)
      as [rest |] eqn:H2.
    { exists "data:image/jpeg;base64,"%string. split; [rewrite !elem_of_cons; naive_solver |].
      by apply dropHeader_Some. }
    destruct (Gemini.dropHeader "data:image/jpg;base64," imageBase64)
      as [rest |] eqn:H3.
    { exists "data:image/jpg;base64,"%string. split; [rewrite !elem_of_cons; naive_solver |].
      by apply dropHeader_Some. }
    exists ""%string. split; [rewrite !elem_of_cons; naive_solver | done].
Qed.

(** An upload of another type keeps its header: the data of a GIF data URL
    is sent with [data:image/gif;base64,] in front. *)
Example cleanBase64_gif :
  Gemini.cleanBase64 "data:image/gif;base64,R0lGOD" = "data:image/gif;base64,R0lGOD"%string.
Proof. reflexivity. Qed.

(** * The generation handlers *)

Lemma orElse_nonempty a fallback :
  fallback <> EmptyString -> orElse a fallback <> EmptyString.
Proof.
  intros Hd. unfold orElse. destruct a as [str |]; [| done].
  destruct (String.eqb_spec str ""); done.
Qed.

Lemma handleApiError_nonempty aistudio err :
  App.handleApiError aistudio err <> EmptyString.
Proof.
  unfold App.handleApiError.
  assert (orElse (Some (orElse (message err) (asString err)))
            App.generationFailed <> EmptyString) as Hshown
    by (by apply orElse_nonempty).
  destruct (App.needsKey _); [| done].
  destruct aistudio as [studio |]; [| done].
  by destruct (App.openSelectKey studio).
Qed.


(** X19.  [handleApiError] never leaves the error empty: the message it sets is
    the fixed text after a key selection, the message of the error, or the
    fixed text of a failed generation.  The key selection is offered only
    for a message that has one of the six markers. *)
Theorem handleApiError_message aistudio err :
  App.handleApiError aistudio err <> EmptyString /\
  (App.handleApiError aistudio err = App.keyUpdated \/
   App.handleApiError aistudio err = orElse (message err) (asString err) \/
   App.handleApiError aistudio err = App.generationFailed) /\
  (App.needsKey (orElse (message err) (asString err)) = false ->
   App.handleApiError aistudio err
     = orElse (Some (orElse (message err) (asString err))) App.generationFailed).
Proof.
  unfold App.handleApiError.
  set (msg := orElse (message err) (asString err)).
  assert (orElse (Some msg) App.generationFailed <> EmptyString) as Hshown
    by (by apply orElse_nonempty).
  assert (orElse (Some msg) App.generationFailed = msg \/
          orElse (Some msg) App.generationFailed = App.generationFailed) as Hcase.
  { destruct (String.eqb msg "") eqn:E; [right | left];
      unfold orElse; by rewrite E. }
  split; [| split].
  - apply handleApiError_nonempty.
  - destruct (App.needsKey msg); [| tauto].
    destruct aistudio as [studio |]; [| tauto].
    destruct (App.openSelectKey studio); [by left | tauto].
  - by intros ->.
Qed.



(** The edit of [editing] by [answering]: the data sent is the data of the
    image without its header, and the image shown is the answer. *)
Example handleEdit_answering :
  App.handleEdit (Return tt) None answering editing =
    (App.mkState (Some "data:image/png;base64,BBBB"%string) false None "", None).
Proof. reflexivity. Qed.

(** X21.  When [ensureApiKey] throws, [handleEdit] stops before its [try]: it
    rejects with that error and leaves the busy flag on; nothing else of the
    state changes but the error, which is cleared. *)
Theorem handleEdit_key_failure aistudio aistudio' generateContent st image err :
  App.generatedImage st = Some image ->
  image <> EmptyString ->
  App.editPrompt st <> EmptyString ->
  App.ensureApiKey aistudio = Throw err ->
  App.handleEdit (App.ensureApiKey aistudio) aistudio' generateContent st
    = (App.mkState (Some image) true None (App.editPrompt st), Some err) /\
  exists studio,
    aistudio = Some studio /\
    (App.hasSelectedApiKey studio = Throw err \/
     (App.hasSelectedApiKey studio = Return false /\
      App.openSelectKey studio = Throw err)).
Proof.
  intros Himg Hne Hprompt Hkey. split.
  - unfold App.handleEdit. rewrite Himg, Hkey.
    rewrite (proj2 (String.eqb_neq image "") Hne).
    by rewrite (proj2 (String.eqb_neq (App.editPrompt st) "") Hprompt).
  - unfold App.ensureApiKey in Hkey.
    destruct aistudio as [studio |]; [| done]. exists studio. split; [done |].
    destruct (App.hasSelectedApiKey studio) as [[|] | e]; [done | |].
    + right. by split.
    + left. congruence.
Qed.

Lemma handleEdit_key_failure_witness :
  App.handleEdit
    (App.ensureApiKey
       (Some (App.mkAiStudio (Return false) (Throw (newError "closed")))))
    None answering editing
    = (App.mkState (Some "data:image/png;base64,AAAA"%string) true None
         (App.editPrompt editing), Some (newError "closed")) /\
  exists studio,
    Some (App.mkAiStudio (Return false) (Throw (newError "closed")))
      = Some studio /\
    (App.hasSelectedApiKey studio = Throw (newError "closed") \/
     (App.hasSelectedApiKey studio = Return false /\
      App.openSelectKey studio = Throw (newError "closed"))).
Proof.
  apply (handleEdit_key_failure
           (Some (App.mkAiStudio (Return false) (Throw (newError "closed"))))
           None answering editing "data:image/png;base64,AAAA"
           (newError "closed")).
  - reflexivity.
  - discriminate.
  - discriminate.
  - reflexivity.
Defined.

(** * Custom styles *)

Lemma filter_keep_all {A} (f : A -> bool) (l : list A) :
  Forall (fun x => f x = true) l -> List.filter f l = l.
Proof.
  induction 1 as [| x l Hx _ IH]; simpl; [done |]. by rewrite Hx, IH.
Qed.

(** X22.  A style saved under an id that no saved style has is taken out again
    by deleting that id: the list is the one from before the save. *)
Theorem save_then_delete now st :
  App.isBlank (App.customStyle st) = false ->
  App.isBlank (App.styleName st) = false ->
  Forall (fun s => App.id s <> now) (App.savedStyles st) ->
  App.savedStyles (App.saveCustomStyle now st)
    = App.savedStyles st
        ++ [App.mkSavedStyle now (App.styleName st) (App.customStyle st)] /\
  App.styleName (App.saveCustomStyle now st) = EmptyString /\
  App.savedStyles (App.deleteCustomStyle now (App.saveCustomStyle now st))
    = App.savedStyles st.
Proof.
  intros Hstyle Hname Hfresh. unfold App.saveCustomStyle.
  rewrite Hstyle, Hname. cbn [orb]. split; [done |]. split; [done |].
  unfold App.deleteCustomStyle. cbn [App.savedStyles].
  rewrite List.filter_app. simpl. rewrite String.eqb_refl. simpl.
  rewrite app_nil_r. apply filter_keep_all.
  eapply Forall_impl; [exact Hfresh |]. intros s Hs. simpl in Hs.
  by rewrite (proj2 (String.eqb_neq _ _) Hs).
Qed.

Lemma save_then_delete_witness :
  App.savedStyles (App.saveCustomStyle "1700000000999" panel)
    = App.savedStyles panel
        ++ [App.mkSavedStyle "1700000000999" (App.styleName panel)
              (App.customStyle panel)] /\
  App.styleName (App.saveCustomStyle "1700000000999" panel) = EmptyString /\
  App.savedStyles
    (App.deleteCustomStyle "1700000000999"
       (App.saveCustomStyle "1700000000999" panel))
    = App.savedStyles panel.
Proof.
  apply (save_then_delete "1700000000999" panel).
  - reflexivity.
  - reflexivity.
  - repeat constructor. discriminate.
Defined.

(** X23.  [deleteCustomStyle] takes out every style that has the id, keeps the
    others in their order, and takes out nothing when no style has the id. *)
Theorem deleteCustomStyle_spec id0 st :
  (forall s, s ∈ App.savedStyles (App.deleteCustomStyle id0 st) <->
             s ∈ App.savedStyles st /\ App.id s <> id0) /\
  App.savedStyles (App.deleteCustomStyle id0 st) `sublist_of` App.savedStyles st /\
  (Forall (fun s => App.id s <> id0) (App.savedStyles st) ->
   App.savedStyles (App.deleteCustomStyle id0 st) = App.savedStyles st).
Proof.
  unfold App.deleteCustomStyle. cbn [App.savedStyles].
  split; [| split].
  - intros s. rewrite !list_elem_of_In, List.filter_In, negb_true_iff.
    by rewrite String.eqb_neq.
  - induction (App.savedStyles st) as [| s l IH]; simpl; [done |].
    destruct (negb _); [by apply sublist_skip | by apply sublist_cons].
  - intros Hall. apply filter_keep_all.
    eapply Forall_impl; [exact Hall |]. intros s Hs. simpl in Hs.
    by rewrite (proj2 (String.eqb_neq _ _) Hs).
Qed.

Lemma act_persisted st a :
  App.loadSavedStyles (App.storage st) = App.savedStyles st ->
  App.loadSavedStyles (App.storage (App.act st a))
    = App.savedStyles (App.act st a).
Proof.
  intros Hst. destruct a as [str | str | now | id0 | prompt0]; simpl; try done.
  unfold App.saveCustomStyle. by destruct (_ || _).
Qed.

(** X24.  Whatever is typed, saved, deleted and loaded in the style panel, the
    stored item reads back as the list of saved styles: a reload shows the
    styles the panel showed. *)
Theorem styles_persisted stored actions :
  App.loadSavedStyles (App.storage (foldl App.act (App.initialStyles stored) actions))
    = App.savedStyles (foldl App.act (App.initialStyles stored) actions) /\
  App.initialStyles
    (App.storage (foldl App.act (App.initialStyles stored) actions))
    = App.mkStylePanel
        (App.savedStyles (foldl App.act (App.initialStyles stored) actions))
        "" ""
        (App.storage (foldl App.act (App.initialStyles stored) actions)).
Proof.
  assert (forall st,
    App.loadSavedStyles (App.storage st) = App.savedStyles st ->
    App.loadSavedStyles (App.storage (foldl App.act st actions))
      = App.savedStyles (foldl App.act st actions)) as Hinv.
  { induction actions as [| a actions IH]; intros st Hst; simpl; [done |].
    apply IH. by apply act_persisted. }
  specialize (Hinv (App.initialStyles stored) eq_refl).
  split; [done |]. unfold App.initialStyles at 1. by rewrite Hinv.
Qed.

(** A name of blanks only is not saved. *)
Example saveCustomStyle_blank :
  App.saveCustomStyle "1700000000999"
    (App.mkStylePanel [] "   " "robots" App.Missing)
  = App.mkStylePanel [] "   " "robots" App.Missing.
Proof. reflexivity. Qed.

(** * Two more facts on the pixel operations *)

(** X7.  [removeColor] reads its seed by the byte index alone: a seed one column
    past the right edge is the first pixel of the next row. *)
Theorem removeColor_seed_wraps img startX startY :
  removeColor img (startX + width img) startY
    = removeColor img startX (startY + 1).
Proof.
  rewrite !removeColor_eq.
  replace (byteIndex img (startX + width img, startY))
    with (byteIndex img (startX, startY + 1))
    by (unfold byteIndex; simpl; lia).
  done.
Qed.

Lemma region_after_fill img img1 seed c p :
  width img1 = width img -> height img1 = height img ->
  (forall q, region img seed q -> colorAt img1 q = newColor c) ->
  region img seed p -> region img1 seed p.
Proof.
  intros HW HH Hfill.
  assert (forall q, inBounds img q -> inBounds img1 q) as Hin
    by (intros q; unfold inBounds; by rewrite HW, HH).
  induction 1 as [Hs | p q Hreg IH Ha Hq Hcol].
  - apply region_seed. by apply Hin.
  - apply (region_step img1 seed p q); [done | done | by apply Hin |].
    rewrite (Hfill q) by (by apply (region_step img seed p q)).
    rewrite (Hfill seed); [done |].
    apply region_seed. by eapply region_inBounds, region_sym.
Qed.

(** X6.  A second fill at the same point with another colour repaints at least
    the region of the first fill. *)
Theorem floodFill_twice_repaints img c1 c2 startX startY fuel :
  wellFormed img ->
  rgb8 c1 -> rgb8 c2 ->
  inBounds img (startX, startY) ->
  (length (data img) + 1 <= fuel)%nat ->
  exists img1 img2,
    floodFill fuel img c1 startX startY = Some img1 /\
    floodFill fuel img1 c2 startX startY = Some img2 /\
    forall p, region img (startX, startY) p -> colorAt img2 p = newColor c2.
Proof.
  intros [Hlen _] Hc1 Hc2 Hseed Hfuel.
  destruct (floodFill_result img c1 startX startY fuel Hlen Hc1 Hseed Hfuel)
    as (d1 & Hret1 & Hlen1 & _ & Hpix1 & _ & _).
  set (img1 := mkImageData (width img) (height img) d1) in *.
  assert (Z.of_nat (length (data img1)) = width img1 * height img1 * 4) as Hlen1'
    by (simpl; by rewrite Hlen1).
  assert (inBounds img1 (startX, startY)) as Hseed1 by exact Hseed.
  assert (length (data img1) + 1 <= fuel)%nat as Hfuel1
    by (simpl; by rewrite Hlen1).
  destruct (floodFill_result img1 c2 startX startY fuel Hlen1' Hc2 Hseed1 Hfuel1)
    as (d2 & Hret2 & _ & _ & Hpix2 & _ & _).
  exists img1, (mkImageData (width img1) (height img1) d2).
  split; [done |]. split; [done |].
  intros p Hreg.
  assert (region img1 (startX, startY) p) as Hreg1.
  { apply (region_after_fill img img1 (startX, startY) c1); try done.
    intros q Hq. apply (Hpix1 q (region_inBounds _ _ _ Hq)). exact Hq. }
  apply (Hpix2 p (region_inBounds _ _ _ Hreg1)). exact Hreg1.
Qed.

Lemma floodFill_twice_repaints_witness :
  exists img1 img2,
    floodFill 9 twins (mkRgb 9 9 9) 0 0 = Some img1 /\
    floodFill 9 img1 (mkRgb 1 1 1) 0 0 = Some img2 /\
    forall p, region twins (0, 0) p -> colorAt img2 p = newColor (mkRgb 1 1 1).
Proof.
  apply (floodFill_twice_repaints twins (mkRgb 9 9 9) (mkRgb 1 1 1) 0 0 9).
  - split; [reflexivity | repeat constructor; lia].
  - unfold rgb8; simpl; lia.
  - unfold rgb8; simpl; lia.
  - unfold inBounds; simpl; lia.
  - simpl; lia.
Defined.
